(** * naev special effects (src/spfx.c): effect pools, camera shake, trails

    A shallow embedding of the effect-lifecycle engine of [spfx.c].

    Modelling conventions.
    - A C [double] (and the one [float], [shake_force_ang]) is a rational
      number [Q] with exact arithmetic: rounding, infinities and NaN are
      outside the model.  C's [==], [<], [>] on doubles are [Qeq_bool] and
      the boolean comparisons below.  The control loop of [spfx_begin],
      whose number of turns depends on the rounding of
      [ddt -= shake_fps_min], is also given on doubles, with the rounding
      of binary64 written out.
    - A C [int] is a [Z]; a loop index that never goes below zero at a test
      is a [nat].  Where the code multiplies [int]s or converts a double
      to [int], in [spfx_render], the 32 bits of [int] are written out.
    - A dynamic array of [array.h] is a [list], oldest element first.
    - The file-scope [static] variables of [spfx.c] are the fields of one
      record, [world], that every function takes and returns.
    - Values that the C code reads without having written them (a slot one
      past the end of an array, the fields of a freshly grown element) are
      explicit arguments of the function that reads them.
    - Calls that leave the file (libm, the noise generator, the random
      number generator, SDL) are arguments or fields of the record
      [externs]. *)

From Stdlib Require Import String.
From Stdlib Require Import QArith Qround Qabs Qminmax Qpower ZArith List Bool
  Lia Lqa.
From Stdlib Require Floats.PrimFloat Floats.SpecFloat Floats.FloatOps.
From Equations Require Import Equations.
Import ListNotations.

Open Scope Q_scope.

(** ** Comparisons of doubles *)

(** [x < y] on doubles, as a boolean. *)
Definition Qltb (x y : Q) : bool := negb (Qle_bool y x).

(** [x > y] on doubles, as a boolean. *)
Definition Qgtb (x y : Q) : bool := Qltb y x.

(** The integer part of a double, toward zero. *)
Definition Qtrunc (x : Q) : Z := Z.quot (Qnum x) (Zpos (Qden x)).

(** ** C [int] *)

(** [int] has 32 bits, two's complement. *)
Definition INT_MAX : Z := 2147483647.
Definition INT_MIN : Z := (-2147483648)%Z.

(** An [int] result that leaves the range keeps its 32 low bits. *)
Definition wrap_int (z : Z) : Z :=
  ((z - INT_MIN) mod 4294967296 + INT_MIN)%Z.

(** Conversion of a double to [int]: C truncates toward zero.  A value
    whose integer part is not an [int] is undefined in C; the conversion
    instruction of the x86 gives [INT_MIN] then. *)
Definition int_of_double (x : Q) : Z :=
  let z := Qtrunc x in
  if ((INT_MIN <=? z) && (z <=? INT_MAX))%Z then z else INT_MIN.

(** ** Arrays ([array.h]) *)

Module Array.

(** Modelled from the spec: [array_size] of [array.h] (not in src), the
    number of elements of the array. *)
Definition array_size {A} (a : list A) : Z := Z.of_nat (length a).

(** Modelled from the spec: [array_grow] / [array_push_back] of [array.h]
    (not in src): "appends a new instance" at the end of the array.  The
    element written is given here; [array_grow] itself leaves it
    uninitialised. *)
Definition array_push_back {A} (a : list A) (x : A) : list A := a ++ [x].

(** Modelled from the spec: [array_erase] of [array.h] (not in src).
    [array_erase a first last] removes the elements at the indices
    [first <= k < last] and shifts the rest down ("compacting in place").
    The interval is half open: the pool update erases
    [&layer[i], &layer[i+1]] to remove "exactly that instance and no
    others; pool size strictly decreases by 1 per expiry, never more". *)
Definition array_erase {A} (a : list A) (first last : nat) : list A :=
  firstn first a ++ skipn last a.

(** [array_back]: the last element, if any. *)
Definition array_back {A} (a : list A) : option A := List.last (map Some a) None.

(** [a[i] = x]; out of range the array is left alone (never used so). *)
Fixpoint array_set {A} (a : list A) (i : nat) (x : A) : list A :=
  match a, i with
  | [], _ => []
  | _ :: r, O => x :: r
  | y :: r, S j => y :: array_set r j x
  end.

End Array.
Import Array.

(** ** Data model *)

(** [Vector2d] of [physics.h]: the cartesian components. *)
Record Vector2d := mkVector2d { vx : Q; vy : Q }.

(** Modelled from the spec: [vectnull] of [physics.h] (not in src), the
    vector at "exact rest" [(0,0)]. *)
Definition vectnull : Vector2d := mkVector2d 0 0.

(** Modelled from the spec: [vect_csetmin] of [physics.h] (not in src),
    sets the two components. *)
Definition vect_csetmin (x y : Q) : Vector2d := mkVector2d x y.

(** Modelled from the spec: [vect_cadd] of [physics.h] (not in src),
    "position += velocity * dt" componentwise. *)
Definition vect_cadd (v : Vector2d) (x y : Q) : Vector2d :=
  mkVector2d (vx v + x) (vy v + y).

(** The sprite grid of a [glTexture] ([opengl.h]); [sx] and [sy] are read
    through an [(int)] cast. *)
Record glTexture := mkTexture { tex_sx : Q; tex_sy : Q }.

(** [SPFX_Base]: an effect template. *)
Record SPFX_Base := mkBase {
  name : string;
  ttl  : Q;          (* Time to live *)
  anim : Q;          (* Total duration *)
  gfx  : glTexture
}.

(** [SPFX]: a live effect instance. *)
Record SPFX := mkSPFX {
  pos : Vector2d;
  vel : Vector2d;
  lastframe : Z;
  effect : Z;
  timer : Q
}.

(** The [layer] argument of [spfx_add] and [spfx_render]: an [int] that
    is compared with the two constants of [spfx.h]; any other value is
    [SPFX_LAYER_OTHER]. *)
Inductive layer_id :=
| SPFX_LAYER_FRONT
| SPFX_LAYER_BACK
| SPFX_LAYER_OTHER (n : Z).

(** The static variables of [spfx.c], and the log that [WARN] writes to
    (newest message last). *)
Record world := mkWorld {
  spfx_effects : list SPFX_Base;
  spfx_stack_front : list SPFX;
  spfx_stack_back : list SPFX;
  shake_set : bool;
  shake_pos : Vector2d;
  shake_vel : Vector2d;
  shake_force_mod : Q;
  shake_force_ang : Q;
  shake_off : bool;
  haptic_rumble : Z;
  haptic_lastUpdate : Q;
  warnings : list string
}.

Definition set_front (w : world) (l : list SPFX) : world :=
  mkWorld (spfx_effects w) l (spfx_stack_back w) (shake_set w) (shake_pos w)
    (shake_vel w) (shake_force_mod w) (shake_force_ang w) (shake_off w)
    (haptic_rumble w) (haptic_lastUpdate w) (warnings w).

Definition set_back (w : world) (l : list SPFX) : world :=
  mkWorld (spfx_effects w) (spfx_stack_front w) l (shake_set w) (shake_pos w)
    (shake_vel w) (shake_force_mod w) (shake_force_ang w) (shake_off w)
    (haptic_rumble w) (haptic_lastUpdate w) (warnings w).

Definition set_shake (w : world) (set : bool) (p v : Vector2d) (fm fa : Q)
    (off : bool) : world :=
  mkWorld (spfx_effects w) (spfx_stack_front w) (spfx_stack_back w) set p v
    fm fa off (haptic_rumble w) (haptic_lastUpdate w) (warnings w).

Definition set_haptic_lastUpdate (w : world) (t : Q) : world :=
  mkWorld (spfx_effects w) (spfx_stack_front w) (spfx_stack_back w)
    (shake_set w) (shake_pos w) (shake_vel w) (shake_force_mod w)
    (shake_force_ang w) (shake_off w) (haptic_rumble w) t (warnings w).

(** [WARN(msg)]. *)
Definition WARN (msg : string) (w : world) : world :=
  mkWorld (spfx_effects w) (spfx_stack_front w) (spfx_stack_back w)
    (shake_set w) (shake_pos w) (shake_vel w) (shake_force_mod w)
    (shake_force_ang w) (shake_off w) (haptic_rumble w) (haptic_lastUpdate w)
    (warnings w ++ [msg]).

(** The state right after [spfx_load] on a catalog: the static
    initialisers of the file and two empty stacks. *)
Definition spfx_load (catalog : list SPFX_Base) (rumble : Z) : world :=
  mkWorld catalog [] [] false vectnull vectnull 0 0 true rumble 0 [].

(** ** Effect pools *)

(** [spfx_effects[effect]]; [junk] is what the memory holds when the index
    is not one of the array. *)
Definition effect_at (catalog : list SPFX_Base) (junk : SPFX_Base) (e : Z)
    : SPFX_Base :=
  if (e <? 0)%Z then junk else nth (Z.to_nat e) catalog junk.

(** [spfx_get]: the index of the first template of that name, or -1. *)
Fixpoint spfx_get_from (i : Z) (catalog : list SPFX_Base) (n : string) : Z :=
  match catalog with
  | [] => (-1)%Z
  | b :: r => if String.eqb (name b) n then i else spfx_get_from (i + 1)%Z r n
  end.

Definition spfx_get (w : world) (n : string) : Z :=
  spfx_get_from 0%Z (spfx_effects w) n.


(** The timer given to a new instance ("Timer magic if ttl != anim").
    [rng] is the value of [RNGF()]. *)
Definition spawn_timer (b : SPFX_Base) (rng : Q) : Q :=
  if negb (Qeq_bool (ttl b) (anim b)) then ttl b + rng * anim b else ttl b.

(** [spfx_add].  [junk] is the content of the slot [spfx_effects[size]],
    [frame0] the uninitialised [lastframe] of the grown element, [rng] the
    value of [RNGF()]. *)
Definition spfx_add (junk : SPFX_Base) (frame0 : Z) (rng : Q)
    (effect : Z) (px py vx vy : Q) (layer : layer_id) (w : world) : world :=
  if ((effect <? 0) || (effect >? array_size (spfx_effects w)))%Z then
    WARN "Trying to add spfx with invalid effect!" w
  else
    let cur_spfx :=
      mkSPFX (vect_csetmin px py) (vect_csetmin vx vy) frame0 effect
        (spawn_timer (effect_at (spfx_effects w) junk effect) rng) in
    match layer with
    | SPFX_LAYER_FRONT =>
        set_front w (array_push_back (spfx_stack_front w) cur_spfx)
    | SPFX_LAYER_BACK =>
        set_back w (array_push_back (spfx_stack_back w) cur_spfx)
    | SPFX_LAYER_OTHER _ => WARN "Invalid SPFX layer." w
    end.

(** [spfx_clear]: "Clear rumble". *)
Definition spfx_clear (w : world) : world :=
  set_shake w false vectnull vectnull 0 (shake_force_ang w) true.

(** One turn of the body of the loop of [spfx_update_layer] on the element
    [s = layer[i]]: the timer is decremented; [None] when it is "time to
    die", else the element with its position advanced. *)
Definition update_one (dt : Q) (s : SPFX) : option SPFX :=
  let t := timer s - dt in
  if Qltb t 0 then None
  else Some (mkSPFX (vect_cadd (pos s) (dt * vx (vel s)) (dt * vy (vel s)))
               (vel s) (lastframe s) (effect s) t).

(** A value together with the equation that names it, so that the
    termination proofs below know which element was read. *)
Definition inspect {A} (a : A) : {b : A | a = b} := exist _ a eq_refl.

(** The loop of [spfx_update_layer] from index [i] on.  When the element
    dies it is erased and the same index is visited again ([i--] followed
    by the [i++] of the loop); otherwise the element is written back and
    the index moves on. *)
Equations? update_layer_from (dt : Q) (i : nat) (layer : list SPFX)
    : list SPFX by wf (length layer - i)%nat lt :=
  update_layer_from dt i layer with inspect (nth_error layer i) := {
    | exist _ None _ => layer
    | exist _ (Some s) Hs with update_one dt s := {
        | None => update_layer_from dt i (array_erase layer i (S i))
        | Some s' => update_layer_from dt (S i) (array_set layer i s') } }.
Proof.
  all: assert (Hi : (i < length layer)%nat)
    by (apply nth_error_Some; congruence).
  - assert (Hl : forall (l : list SPFX) k x,
               length (array_set l k x) = length l).
    { induction l as [|y r IH]; intros [|k] x; simpl; auto. }
    rewrite Hl. lia.
  - unfold array_erase. rewrite length_app, length_firstn, length_skipn. lia.
Qed.

(** [spfx_update_layer]. *)
Definition spfx_update_layer (layer : list SPFX) (dt : Q) : list SPFX :=
  update_layer_from dt 0 layer.

(** [spfx_update]. *)
Definition spfx_update (dt : Q) (w : world) : world :=
  let w1 := set_front w (spfx_update_layer (spfx_stack_front w) dt) in
  set_back w1 (spfx_update_layer (spfx_stack_back w1) dt).

(** ** Rendering *)

(** [fmod] of libm: the remainder of [x / y] with the quotient truncated
    toward zero, so that the result has the sign of [x]. *)
Definition fmod (x y : Q) : Q := x - y * inject_Z (Qtrunc (x / y)).

(** Modelled from the spec: [MIN] of [naev.h] (not in src), "min(progress,
    1)". *)
Definition MIN (x y : Q) : Q := if Qgtb x y then y else x.

(** One call of [gl_blitSprite]: texture, position, sprite cell. *)
Record blit := mkBlit {
  blit_gfx : glTexture;
  blit_x : Q;
  blit_y : Q;
  blit_sx : Z;
  blit_sy : Z
}.

(** The frame an instance shows: "don't calculate frame if paused".
    [sx] and [sy] are [int]s, [sx * sy] is their [int] product, and the
    double [sx * sy * MIN(time, 1.)] is converted to the [int]
    [lastframe]. *)
Definition render_frame (paused : bool) (b : SPFX_Base) (s : SPFX) : Z :=
  let sx := int_of_double (tex_sx (gfx b)) in
  let sy := int_of_double (tex_sy (gfx b)) in
  if negb paused then
    let time := 1 - fmod (timer s) (anim b) / anim b in
    int_of_double (inject_Z (wrap_int (sx * sy)) * MIN time 1)
  else lastframe s.

(** The body of the loop of [spfx_render] on [s = spfx_stack[i]]: the
    element with its [lastframe] and the sprite drawn. *)
Definition render_one (paused : bool) (b : SPFX_Base) (s : SPFX)
    : SPFX * blit :=
  let sx := int_of_double (tex_sx (gfx b)) in
  let f := render_frame paused b s in
  (mkSPFX (pos s) (vel s) f (effect s) (timer s),
   mkBlit (gfx b) (vx (pos s)) (vy (pos s)) (Z.rem f sx) (Z.quot f sx)).

(** The loop of [spfx_render], [for (i=size-1; i>=0; i--)], entered with
    [n = i+1]: the stack after it and the sprites in the order drawn. *)
Fixpoint render_from (paused : bool) (catalog : list SPFX_Base)
    (junk : SPFX_Base) (n : nat) (stack : list SPFX)
    : list SPFX * list blit :=
  match n with
  | O => (stack, [])
  | S i =>
      match nth_error stack i with
      | None => (stack, [])
      | Some s =>
          let (s', b) := render_one paused (effect_at catalog junk (effect s)) s in
          let (stack', bs) :=
            render_from paused catalog junk i (array_set stack i s') in
          (stack', b :: bs)
      end
  end.

(** [spfx_render]; [paused] is the global of [pause.h]. *)
Definition spfx_render (paused : bool) (junk : SPFX_Base) (layer : layer_id)
    (w : world) : world * list blit :=
  match layer with
  | SPFX_LAYER_FRONT =>
      let (st, bs) :=
        render_from paused (spfx_effects w) junk
          (length (spfx_stack_front w)) (spfx_stack_front w) in
      (set_front w st, bs)
  | SPFX_LAYER_BACK =>
      let (st, bs) :=
        render_from paused (spfx_effects w) junk
          (length (spfx_stack_back w)) (spfx_stack_back w) in
      (set_back w st, bs)
  | SPFX_LAYER_OTHER _ => (WARN "Rendering invalid SPFX layer." w, [])
  end.

(** ** Trails *)

Record glColour := mkColour { col_r : Q; col_g : Q; col_b : Q; col_a : Q }.

(** [trailPoint]: the fields [p], [c] and [t] of the C struct. *)
Record trailPoint := mkTrailPoint {
  tp_p : Vector2d;
  tp_c : glColour;
  tp_t : Q
}.

(** [Trail_spfx]: the array of control points, oldest first. *)
Record Trail_spfx := mkTrail { points : list trailPoint }.


(** [spfx_trail_grow]. *)
Definition spfx_trail_grow (trail : Trail_spfx) (pos : Vector2d)
    (col : glColour) : Trail_spfx :=
  mkTrail (array_push_back (points trail) (mkTrailPoint pos col 0)).

(** [spfx_trail_remove]. *)
Definition spfx_trail_remove (trail : Trail_spfx) : Trail_spfx := mkTrail [].

(** "Update all elements": [points[i].t += dt]. *)
Definition trail_age (dt : Q) (pt : trailPoint) : trailPoint :=
  mkTrailPoint (tp_p pt) (tp_c pt) (tp_t pt + dt).

(** "Remove first elements if they're outdated": the loop
    [for (i=size-1; i>=0; i--)], entered with [n = i+1]. *)
Fixpoint trail_trim_from (n : nat) (pts : list trailPoint)
    : list trailPoint :=
  match n with
  | O => pts
  | S i =>
      match nth_error pts i with
      | None => pts
      | Some pt =>
          if Qgtb (tp_t pt) 50 then array_erase pts 0 i
          else trail_trim_from i pts
      end
  end.

(** [spfx_trail_update]: the trail after the call and the value returned,
    "boolean wether the trail needs to grow". *)
Definition spfx_trail_update (trail : Trail_spfx) (dt : Q)
    : Trail_spfx * bool :=
  if (array_size (points trail) =? 0)%Z then (trail, true)
  else
    let pts := map (trail_age dt) (points trail) in
    let grow :=
      match array_back pts with
      | Some pt => Qgtb (tp_t pt) 2
      | None => false
      end in
    (mkTrail (trail_trim_from (length pts) pts), grow).

(** ** Camera shake *)

(** What [spfx.c] takes from outside the file for the shake: the two
    constants of [spfx.h], the functions of libm, the noise generator of
    [perlin.c] (applied to [shake_noise]) and the modulus of a vector of
    [physics.h]. *)
Record externs := mkExterns {
  SHAKE_DECAY : Q;
  SHAKE_MAX : Q;
  M_PI : Q;
  sqrt : Q -> Q;
  cos : Q -> Q;
  sin : Q -> Q;
  noise_simplex1 : Q -> Q;
  VMOD : Vector2d -> Q
}.

Definition SHAKE_MASS : Q := 1 / 400.
Definition SHAKE_K : Q := 1 / 50.
Definition SHAKE_B (E : externs) : Q := 3 * sqrt E (SHAKE_K * SHAKE_MASS).
Definition HAPTIC_UPDATE_INTERVAL : Q := 1 # 10.
Definition shake_fps_min : Q := 1 / 10.

(** [spfx_updateShake]; [rng] is the value of [RNGF()]. *)
Definition spfx_updateShake (E : externs) (rng : Q) (dt : Q) (w : world)
    : world :=
  if shake_off w then w
  else
    (* The shake decays over time *)
    let '(force_mod, forced) :=
      if Qgtb (shake_force_mod w) 0 then
        let fm := shake_force_mod w - SHAKE_DECAY E * dt in
        if Qltb fm 0 then (0, false) else (fm, true)
      else (shake_force_mod w, false) in
    (* See if it's settled down. *)
    let pmod := VMOD E (shake_pos w) in
    let vmod := VMOD E (shake_vel w) in
    if negb forced && Qltb pmod (1 # 100) && Qltb vmod (1 # 100) then
      set_shake w (shake_set w) (shake_pos w) (shake_vel w) force_mod
        (if Qgtb (shake_force_ang w) 1000 then rng else shake_force_ang w)
        true
    else
      (* Calculate force. *)
      let force_x :=
        - SHAKE_K * vx (shake_pos w) + - SHAKE_B E * vx (shake_vel w) in
      let force_y :=
        - SHAKE_K * vy (shake_pos w) + - SHAKE_B E * vy (shake_vel w) in
      (* Apply force if necessary. *)
      let '(force_ang, force_x, force_y) :=
        if forced then
          let ang := shake_force_ang w + dt in
          let angle := noise_simplex1 E ang * 5 * M_PI E in
          (ang, force_x + force_mod * cos E angle,
                force_y + force_mod * sin E angle)
        else (shake_force_ang w, force_x, force_y) in
      (* Update velocity. *)
      let v := vect_cadd (shake_vel w) ((1 / SHAKE_MASS) * force_x * dt)
                                       ((1 / SHAKE_MASS) * force_y * dt) in
      (* Update position. *)
      let p := vect_cadd (shake_pos w) (vx v * dt) (vy v * dt) in
      set_shake w (shake_set w) p v force_mod force_ang false.

(** The "micro basic simple control loop" of [spfx_begin],
    [while (ddt > shake_fps_min)], for any update function [tick]: the
    state after the loop and the leftover [ddt]. *)
Equations? substep_loop {St : Type} (tick : Q -> St -> St) (ddt : Q) (s : St)
    : Q * St by wf (Z.to_nat (Qceiling (ddt / shake_fps_min))) lt :=
  substep_loop tick ddt s with inspect (Qgtb ddt shake_fps_min) := {
    | exist _ true _ =>
        substep_loop tick (ddt - shake_fps_min) (tick shake_fps_min s)
    | exist _ false _ => (ddt, s) }.
Proof.
  assert (Hd : 1 # 10 < ddt).
  { unfold Qgtb, Qltb, shake_fps_min in e.
    destruct (Qle_bool ddt (1 / 10)) eqn:Hle; [discriminate|].
    destruct (Qlt_le_dec (1 # 10) ddt) as [H|H]; [exact H|].
    apply Qle_bool_iff in H. change (1 / 10) with (1 # 10) in Hle.
    congruence. }
  set (a := Qceiling (ddt / shake_fps_min)).
  set (b := Qceiling ((ddt - shake_fps_min) / shake_fps_min)).
  assert (Ha : ddt / shake_fps_min <= inject_Z a) by apply Qle_ceiling.
  assert (Hb : inject_Z (b - 1) < (ddt - shake_fps_min) / shake_fps_min)
    by apply Qceiling_lt.
  assert (E1 : (ddt - shake_fps_min) / shake_fps_min
               == ddt / shake_fps_min - 1) by (unfold shake_fps_min; field).
  assert (E2 : ddt / shake_fps_min == 10 * ddt)
    by (unfold shake_fps_min; field).
  unfold Z.sub in Hb. rewrite inject_Z_plus, inject_Z_opp, E1 in Hb.
  change (inject_Z 1) with 1 in Hb.
  assert (Hba : inject_Z b < inject_Z a) by lra.
  assert (H0 : inject_Z 1 < inject_Z a)
    by (change (inject_Z 1) with 1; lra).
  rewrite <- Zlt_Qlt in Hba, H0. lia.
Qed.

(** The calls of [spfx_updateShake] made by [spfx_begin] when the shake is
    on, for any update function [tick]. *)
Definition shake_control_loop {St : Type} (tick : Q -> St -> St) (dt : Q)
    (s : St) : St :=
  if Qgtb dt shake_fps_min then
    let (ddt, s') := substep_loop tick dt s in
    tick ddt s'    (* Leftover. *)
  else tick dt s.

(** [spfx_begin]; [rng] is the value of [RNGF()]. *)
Definition spfx_begin (E : externs) (rng : Q) (dt real_dt : Q) (w : world)
    : world :=
  (* Defaults. *)
  let w := set_shake w false (shake_pos w) (shake_vel w) (shake_force_mod w)
             (shake_force_ang w) (shake_off w) in
  if shake_off w then w
  else
    (* Decrement the haptic timer. *)
    let w :=
      if Qgtb (haptic_lastUpdate w) 0
      then set_haptic_lastUpdate w (haptic_lastUpdate w - real_dt)
      else w in
    let w := shake_control_loop (spfx_updateShake E rng) dt w in
    set_shake w true (shake_pos w) (shake_vel w) (shake_force_mod w)
      (shake_force_ang w) (shake_off w).

(** [spfx_hapticRumble]; [sdl_ok] tells whether [SDL_HapticUpdateEffect]
    succeeds. *)
Definition spfx_hapticRumble (E : externs) (sdl_ok : bool) (modifier : Q)
    (w : world) : world :=
  if (haptic_rumble w >=? 0)%Z then
    (* Not time to update yet. *)
    if Qgtb (haptic_lastUpdate w) 0 || shake_off w
       || Qgtb modifier (SHAKE_MAX E / 3)
    then w
    else if negb sdl_ok then WARN "Failed to update haptic effect." w
    else set_haptic_lastUpdate w (haptic_lastUpdate w + HAPTIC_UPDATE_INTERVAL)
  else w.

(** [spfx_shake]. *)
Definition spfx_shake (E : externs) (sdl_ok : bool) (modifier : Q) (w : world)
    : world :=
  (* Add the modifier. *)
  let fm := shake_force_mod w + modifier in
  let fm := if Qgtb fm (SHAKE_MAX E) then SHAKE_MAX E else fm in
  let w := set_shake w (shake_set w) (shake_pos w) (shake_vel w) fm
             (shake_force_ang w) (shake_off w) in
  (* Rumble if it wasn't rumbling before. *)
  let w := spfx_hapticRumble E sdl_ok modifier w in
  (* Notify that rumble is active. *)
  set_shake w (shake_set w) (shake_pos w) (shake_vel w) (shake_force_mod w)
    (shake_force_ang w) false.

(** [spfx_getShake]. *)
Definition spfx_getShake (w : world) : Q * Q :=
  if shake_off w then (0, 0)
  else (vx (shake_pos w), vy (shake_pos w)).

(** ** The control loop of [spfx_begin] on doubles *)

(** The steps of the loop are doubles, and [ddt -= shake_fps_min] rounds
    its result; the number of turns of the loop and the step left at its
    end depend on that rounding, which is written out here.

    A finite double is a rational [m * 2^e] with [|m| < 2^53].  An
    operation of C on doubles gives the double nearest to the result on
    rationals, and of two doubles equally near the one with the even
    [m].  The values of the loop stay far from both ends of the range of
    the exponent, which is left open. *)

Definition pow2 (e : Z) : Q := 2 ^ e.

(** The exponent of [x > 0]: the [e] with [2^e <= x < 2^(e+1)].  The
    difference of the bit lengths of numerator and denominator is [e] or
    [e + 1]. *)
Definition ilog2 (x : Q) : Z :=
  let e := (Z.log2 (Qnum x) - Z.log2 (Zpos (Qden x)))%Z in
  if Qle_bool (pow2 e) x then e else (e - 1)%Z.

(** The nearest integer, the even one of two equally near. *)
Definition rne (x : Q) : Z :=
  let f := Qfloor x in
  match Qcompare (x - inject_Z f) (1 # 2) with
  | Lt => f
  | Gt => (f + 1)%Z
  | Eq => if Z.even f then f else (f + 1)%Z
  end.

(** The double nearest to [x > 0]: [x] is rounded to a multiple of the
    unit [2^(e-52)] of its binade. *)
Definition round_pos (x : Q) : Q :=
  let u := pow2 (ilog2 x - 52) in
  inject_Z (rne (x / u)) * u.

(** The double nearest to [x]. *)
Definition round64 (x : Q) : Q :=
  match Qnum x with
  | Z0 => 0
  | Zpos _ => round_pos x
  | Zneg _ => - round_pos (- x)
  end.

(** [shake_fps_min = 1./10.] as the double it is. *)
Definition shake_fps_min64 : Q := round64 (1 / 10).

(** The loop [while (ddt > shake_fps_min)] of [spfx_begin] on doubles,
    for any update function [tick]: the leftover [ddt] and the state
    after the loop.  [ddt -= shake_fps_min] may leave a large [ddt] as it
    is, so the loop need not end: [fuel] bounds the number of tests of
    its condition, and the result is [None] when they do not suffice. *)
Fixpoint substep_loop64 {St : Type} (tick : Q -> St -> St) (fuel : nat)
    (ddt : Q) (s : St) : option (Q * St) :=
  match fuel with
  | O => None
  | S fuel' =>
      if Qgtb ddt shake_fps_min64 then
        substep_loop64 tick fuel' (round64 (ddt - shake_fps_min64))
          (tick shake_fps_min64 s)
      else Some (ddt, s)
  end.

(** The calls of [spfx_updateShake] made by [spfx_begin] when the shake is
    on, with the steps computed on doubles. *)
Definition shake_control_loop64 {St : Type} (tick : Q -> St -> St)
    (fuel : nat) (dt : Q) (s : St) : option St :=
  if Qgtb dt shake_fps_min64 then
    match substep_loop64 tick fuel dt s with
    | Some (ddt, s') => Some (tick ddt s')    (* Leftover. *)
    | None => None
    end
  else Some (tick dt s).

(** The step sizes that [spfx_begin] passes to [spfx_updateShake], in
    order: the control loop run on an update function that only records
    its argument. *)
Definition begin_steps64 (fuel : nat) (dt : Q) : option (list Q) :=
  shake_control_loop64 (fun h (log : list Q) => log ++ [h]) fuel dt [].

(** [spfx_begin] with the steps computed on doubles. *)
Definition spfx_begin64 (E : externs) (rng : Q) (fuel : nat) (dt real_dt : Q)
    (w : world) : option world :=
  (* Defaults. *)
  let w := set_shake w false (shake_pos w) (shake_vel w) (shake_force_mod w)
             (shake_force_ang w) (shake_off w) in
  if shake_off w then Some w
  else
    (* Decrement the haptic timer. *)
    let w :=
      if Qgtb (haptic_lastUpdate w) 0
      then set_haptic_lastUpdate w (haptic_lastUpdate w - real_dt)
      else w in
    match shake_control_loop64 (spfx_updateShake E rng) fuel dt w with
    | Some w =>
        Some (set_shake w true (shake_pos w) (shake_vel w)
                (shake_force_mod w) (shake_force_ang w) (shake_off w))
    | None => None
    end.

(** What is left of [ddt] after [k] turns of the loop on doubles. *)
Fixpoint leftover64 (k : nat) (ddt : Q) : Q :=
  match k with
  | O => ddt
  | S k' => leftover64 k' (round64 (ddt - shake_fps_min64))
  end.

(** The doubles of the processor, as the kernel has them. *)
Module Hardware.
Import PrimFloat SpecFloat FloatOps.

(** The value of a finite double. *)
Definition float_value (f : float) : Q :=
  match Prim2SF f with
  | S754_finite s m e =>
      (if s then - inject_Z (Zpos m) else inject_Z (Zpos m)) * pow2 e
  | _ => 0
  end.

(** The rest [ddt] after [k] turns of the loop of [spfx_begin]. *)
Definition leftover_float (k : nat) (dt : float) : float :=
  Nat.iter k (fun ddt => (ddt - 1 / 10)%float) dt.

End Hardware.

(** ** Trail colour sets *)

(** [trailColour] of [spfx.h]: the fields that [trailTypes_load] writes. *)
Record trailColour := mkTrailColour {
  tc_name : string;
  idle_col : glColour;
  glow_col : glColour;
  aftb_col : glColour;
  jmpn_col : glColour
}.

(** The loop of [trailType_get] from index [i] on: the index at which it
    returns, or [None] when it runs to the end. *)
Fixpoint trailType_get_from (i : Z) (stack : list trailColour) (n : string)
    : option Z :=
  match stack with
  | [] => None
  | tc :: r =>
      if String.eqb (tc_name tc) n then Some i
      else trailType_get_from (i + 1)%Z r n
  end.

(** [trailType_get] on the global [trail_col_stack]: the value returned and
    the state, with its log. *)
Definition trailType_get (trail_col_stack : list trailColour) (n : string)
    (w : world) : Z * world :=
  match trailType_get_from 0%Z trail_col_stack n with
  | Some i => (i, w)
  | None => ((-1)%Z, WARN "Trail type not found in stack" w)
  end.

(** ** Missions ([mission.c]) *)

Module Missions.

(** A pointer to a [MissionData], by what it points to; [None] is
    [NULL]. *)
Definition MissionData := string.

(** A Lua state: the libraries opened in it, in the order opened. *)
Definition lua_State := list string.

(** [Mission] of [mission.h]: the two fields that [mission_create]
    writes. *)
Record Mission := mkMission {
  data : option MissionData;
  L : option lua_State
}.

(** [luaL_newstate] followed by [luaopen_string] and [misn_loadLibs]. *)
Definition new_lua_state : lua_State := ["string"%string; "misn"%string].

(** "find last mission": the loop
    [for (i=0; i<MISSION_MAX; i++) if (player_missions[i].data == NULL) break;]
    from index [i] on; the result is the value of [i] after the loop.
    [MISSION_MAX] is the length of the table. *)
Fixpoint first_free_from (i : nat) (slots : list Mission) : nat :=
  match slots with
  | [] => i
  | m :: r =>
      match data m with
      | None => i
      | Some _ => first_free_from (S i) r
      end
  end.

(** [mission_create] on the table [player_missions]: the value returned and
    the table after the call. *)
Definition mission_create (misn : option MissionData)
    (player_missions : list Mission) : Z * list Mission :=
  let i := first_free_from 0 player_missions in
  (* no missions left *)
  if (length player_missions <=? i)%nat then ((-1)%Z, player_missions)
  else
    (0%Z, array_set player_missions i (mkMission misn (Some new_lua_state))).

(** [missions_load]. *)
Definition missions_load : Z := 0%Z.

End Missions.

(** ** Vocabulary of the specification *)

(** An instance survives an update by [dt] when its decremented timer is
    not below zero. *)
Definition alive (dt : Q) (s : SPFX) : bool := negb (Qltb (timer s - dt) 0).

(** A surviving instance after an update by [dt]: "position += velocity *
    dt", timer decremented. *)
Definition advance (dt : Q) (s : SPFX) : SPFX :=
  mkSPFX (vect_cadd (pos s) (dt * vx (vel s)) (dt * vy (vel s)))
    (vel s) (lastframe s) (effect s) (timer s - dt).

(** Two vectors, two instances, with numerically equal fields. *)
Definition Vector2d_eq (u v : Vector2d) : Prop :=
  vx u == vx v /\ vy u == vy v.

Definition SPFX_eq (s1 s2 : SPFX) : Prop :=
  Vector2d_eq (pos s1) (pos s2) /\ Vector2d_eq (vel s1) (vel s2) /\
  lastframe s1 = lastframe s2 /\ effect s1 = effect s2 /\
  timer s1 == timer s2.

(** The pool of a layer. *)
Definition layer_stack (layer : layer_id) (w : world) : list SPFX :=
  match layer with
  | SPFX_LAYER_FRONT => spfx_stack_front w
  | SPFX_LAYER_BACK => spfx_stack_back w
  | SPFX_LAYER_OTHER _ => []
  end.

(** The retention limit of a trail point, and the age that asks for
    growth. *)
Definition TRAIL_RETENTION : Q := 50.

(** ** States used in examples *)

(** What the slot past the end of a catalog holds in the examples. *)
Definition junk_base : SPFX_Base := mkBase "junk" 0 0 (mkTexture 0 0).

(** A catalog with one template, two instances on the front layer and one
    on the back layer. *)
Definition pool_example : world :=
  mkWorld [mkBase "explosion" 1 1 (mkTexture 4 4)]
    [mkSPFX (mkVector2d 3 4) (mkVector2d 1 (-2)) 0 0 1;
     mkSPFX (mkVector2d 0 0) (mkVector2d 5 5) 7 0 0]
    [mkSPFX (mkVector2d (1 # 2) 0) (mkVector2d 0 0) 0 0 (3 # 4)]
    false vectnull vectnull 0 0 true (-1) 0 [].

(** A template whose time to live (3 s) is not its animation time (1 s),
    and the state loaded with it. *)
Definition looping_base : SPFX_Base := mkBase "smoke" 3 1 (mkTexture 4 2).

Definition looping_example : world := spfx_load [looping_base] (-1).

(** A trail point of age [t], at the origin. *)
Definition tpt (t : Q) : trailPoint := mkTrailPoint vectnull (mkColour 0 0 0 0) t.

(** The trail of the specification's example: ages 0, 10, 60 from head to
    tail. *)
Definition trail_example : Trail_spfx := mkTrail [tpt 0; tpt 10; tpt 60].

(** A trail left alone for a long time: every point is older than 50. *)
Definition old_trail_example : Trail_spfx := mkTrail [tpt 80; tpt 70; tpt 60].

(** ** The frame drawn, in the words of the specification *)










(** ** The steps of the shake, in the words of the specification *)

(** What is left of [ddt] after [k] full steps. *)
Fixpoint leftover (k : nat) (ddt : Q) : Q :=
  match k with
  | O => ddt
  | S k' => leftover k' (ddt - shake_fps_min)
  end.

(** The sum of a sequence of step sizes. *)
Definition Qsum (l : list Q) : Q := fold_right Qplus 0 l.

(** The state on which the control loop of [spfx_begin] starts, and the
    state that [spfx_begin] leaves from the one the loop ends on. *)
Definition begin_enter (real_dt : Q) (w : world) : world :=
  let w := set_shake w false (shake_pos w) (shake_vel w) (shake_force_mod w)
             (shake_force_ang w) (shake_off w) in
  if Qgtb (haptic_lastUpdate w) 0
  then set_haptic_lastUpdate w (haptic_lastUpdate w - real_dt)
  else w.

Definition begin_leave (w : world) : world :=
  set_shake w true (shake_pos w) (shake_vel w) (shake_force_mod w)
    (shake_force_ang w) (shake_off w).

(** ** The states the shake can reach *)

(** The calls of the interface of [spfx.c] that write the static
    variables, from the state left by [spfx_load].  Shake modifiers are
    not negative. *)
Inductive shake_reachable (E : externs) : world -> Prop :=
| reach_load catalog rumble :
    shake_reachable E (spfx_load catalog rumble)
| reach_clear w :
    shake_reachable E w -> shake_reachable E (spfx_clear w)
| reach_shake w sdl_ok modifier :
    shake_reachable E w -> 0 <= modifier ->
    shake_reachable E (spfx_shake E sdl_ok modifier w)
| reach_begin w rng dt real_dt :
    shake_reachable E w ->
    shake_reachable E (spfx_begin E rng dt real_dt w)
| reach_add w junk frame0 rng effect px py vx vy layer :
    shake_reachable E w ->
    shake_reachable E (spfx_add junk frame0 rng effect px py vx vy layer w)
| reach_update w dt :
    shake_reachable E w -> shake_reachable E (spfx_update dt w)
| reach_render w paused junk layer :
    shake_reachable E w ->
    shake_reachable E (fst (spfx_render paused junk layer w)).

(** What the proofs below ask of the externals: the shake cannot exceed a
    maximum that is not negative; the modulus of the null vector is below
    the settlement threshold. *)
Definition externs_sane (E : externs) : Prop :=
  0 <= SHAKE_MAX E /\ VMOD E vectnull < 1 # 100.

(** The direction [(cos a, sin a)] is a vector of components at most 1
    that is never null, and the modulus of a vector is at most the sum of
    the magnitudes of its components. *)
Definition externs_geometric (E : externs) : Prop :=
  (forall a, Qabs (cos E a) <= 1 /\ Qabs (sin E a) <= 1 /\
             ~ (cos E a == 0 /\ sin E a == 0)) /\
  (forall v, VMOD E v <= Qabs (vx v) + Qabs (vy v)).

(** Externals in exact rational arithmetic, for the examples: a decay of
    0.3 per second and a maximum of 1; 355/113 for pi; the square root
    cut at six decimals; the point of the unit circle of half-angle
    tangent [a/2] for the direction of angle [a]; a smooth bounded
    function for the noise. *)
Definition example_sqrt (x : Q) : Q :=
  inject_Z (Z.sqrt (Qfloor (x * 1000000000000))) / 1000000.

Definition example_externs : externs :=
  mkExterns (3 # 10) 1 (355 # 113)
    example_sqrt
    (fun a => (1 - (a / 2) * (a / 2)) / (1 + (a / 2) * (a / 2)))
    (fun a => (2 * (a / 2)) / (1 + (a / 2) * (a / 2)))
    (fun x => x / (1 + x * x))
    (fun v => example_sqrt (vx v * vx v + vy v * vy v)).

(** A small shake from rest, of what the force loses in 0.1 s and 0.0001
    more; one frame of 0.1 s while it is forced, one more frame in which
    the force runs out. *)
Definition shaken_example : world :=
  spfx_shake example_externs true ((3 # 10) * (1 # 10) + (1 # 10000))
    (spfx_load [] (-1)).

Definition settled_example : world :=
  spfx_begin example_externs 0 (1 # 10) (1 # 10)
    (spfx_begin example_externs 0 (1 # 10) (1 # 10) shaken_example).

(** The shake force is never negative, and a shake that is off has no
    force left and a spring within the settlement thresholds. *)
Definition shake_inv (E : externs) (w : world) : Prop :=
  0 <= shake_force_mod w /\
  (shake_off w = true ->
   shake_force_mod w == 0 /\
   VMOD E (shake_pos w) < 1 # 100 /\ VMOD E (shake_vel w) < 1 # 100).

(** ** Vocabulary of the further properties *)

(** A trail in the order of its invariant: ages are not negative and do
    not increase from the head to the tail. *)
Fixpoint trail_ordered (pts : list trailPoint) : Prop :=
  match pts with
  | [] => True
  | p :: r => 0 <= tp_t p /\ Forall (fun q => tp_t q <= tp_t p) r /\
              trail_ordered r
  end.

(** A slot of the mission table that holds a mission. *)
Definition occupied (m : Missions.Mission) : Prop := Missions.data m <> None.

(** The number of free slots of a mission table. *)
Definition free_slots (slots : list Missions.Mission) : nat :=
  length (filter (fun m => match Missions.data m with
                           | None => true
                           | Some _ => false
                           end) slots).

(** A mission table of [n] free slots, and the table after a sequence of
    missions were created in it. *)
Definition empty_missions (n : nat) : list Missions.Mission :=
  repeat (Missions.mkMission None None) n.

Definition missions_after (misns : list Missions.MissionData)
    (slots : list Missions.Mission) : list Missions.Mission :=
  fold_left (fun t m => snd (Missions.mission_create (Some m) t)) misns slots.

(** Whether a point older than 50 stands in a list of points. *)
Definition has_outdated (pts : list trailPoint) : bool :=
  existsb (fun pt => Qgtb (tp_t pt) 50) pts.

(** The trim of a trail read from the head: points are dropped as long as
    a point older than 50 stands behind them. *)
Fixpoint trail_cut (pts : list trailPoint) : list trailPoint :=
  match pts with
  | [] => []
  | p :: r => if has_outdated r then trail_cut r else p :: r
  end.

(** A shake of a quarter of the maximum from rest, with a haptic device
    (effect 0 uploaded). *)
Definition rumbling_example : world :=
  spfx_shake example_externs true (1 # 4) (spfx_load [] 0).

(** * Properties *)

(** ** Comparisons *)

Lemma Qltb_true (x y : Q) : Qltb x y = true <-> x < y.
Proof.
  unfold Qltb. rewrite negb_true_iff. split; intro H.
  - apply Qnot_le_lt. intro Hle. apply Qle_bool_iff in Hle. congruence.
  - destruct (Qle_bool y x) eqn:E; [|reflexivity].
    apply Qle_bool_iff in E. lra.
Qed.

Lemma Qltb_false (x y : Q) : Qltb x y = false <-> y <= x.
Proof.
  unfold Qltb. rewrite negb_false_iff. apply Qle_bool_iff.
Qed.

Lemma Qgtb_true (x y : Q) : Qgtb x y = true <-> y < x.
Proof. apply Qltb_true. Qed.

Lemma Qgtb_false (x y : Q) : Qgtb x y = false <-> x <= y.
Proof. apply Qltb_false. Qed.

(** The value of a comparison whose outcome follows from the context. *)
Ltac cmp_true c :=
  replace c with true
    by (symmetry; unfold Qgtb; apply Qltb_true; first [assumption | lra]).

Ltac cmp_false c :=
  replace c with false
    by (symmetry; unfold Qgtb; apply Qltb_false; first [assumption | lra]).

(** ** Arrays *)

Lemma array_set_app {A} (a b : list A) y x :
  array_set (a ++ y :: b) (length a) x = a ++ x :: b.
Proof.
  induction a as [|z a IH]; simpl; [reflexivity|]. now rewrite IH.
Qed.

Lemma array_erase_one_app {A} (a b : list A) y :
  array_erase (a ++ y :: b) (length a) (S (length a)) = a ++ b.
Proof.
  unfold array_erase.
  rewrite firstn_app, firstn_all, Nat.sub_diag, app_nil_r.
  replace (S (length a)) with (length (a ++ [y]))
    by (rewrite length_app; simpl; lia).
  change (a ++ y :: b) with (a ++ [y] ++ b). rewrite app_assoc.
  rewrite skipn_app, skipn_all, Nat.sub_diag. reflexivity.
Qed.

(** ** The pool update *)

(** The loop of [spfx_update_layer], one turn unfolded. *)
Lemma update_layer_from_step dt i layer :
  update_layer_from dt i layer =
  match nth_error layer i with
  | None => layer
  | Some s =>
      match update_one dt s with
      | None => update_layer_from dt i (array_erase layer i (S i))
      | Some s' => update_layer_from dt (S i) (array_set layer i s')
      end
  end.
Proof.
  funelim (update_layer_from dt i layer).
  - rewrite e. reflexivity.
  - rewrite Hs, Heq. reflexivity.
  - rewrite Hs, Heq. reflexivity.
Qed.

Lemma update_one_alive dt s :
  update_one dt s = if alive dt s then Some (advance dt s) else None.
Proof.
  unfold update_one, alive, advance.
  destruct (Qltb (timer s - dt) 0); reflexivity.
Qed.

(** With the elements before index [i] already visited, the loop keeps
    them and goes through the others from left to right. *)
Lemma update_layer_from_app dt (rest done : list SPFX) :
  update_layer_from dt (length done) (done ++ rest) =
  done ++ map (advance dt) (filter (alive dt) rest).
Proof.
  revert done. induction rest as [|s rest IH]; intro done.
  - rewrite update_layer_from_step.
    replace (nth_error (done ++ []) (length done)) with (@None SPFX).
    + simpl. reflexivity.
    + symmetry. apply nth_error_None. rewrite app_nil_r. lia.
  - rewrite update_layer_from_step.
    rewrite nth_error_app2, Nat.sub_diag by lia. simpl nth_error.
    cbv iota beta. rewrite update_one_alive. simpl filter.
    destruct (alive dt s).
    + rewrite array_set_app.
      replace (done ++ advance dt s :: rest)
        with ((done ++ [advance dt s]) ++ rest)
        by (rewrite <- app_assoc; reflexivity).
      replace (S (length done)) with (length (done ++ [advance dt s]))
        by (rewrite length_app; simpl; lia).
      rewrite IH, <- app_assoc. reflexivity.
    + rewrite array_erase_one_app. apply IH.
Qed.

Lemma spfx_update_layer_filter layer dt :
  spfx_update_layer layer dt = map (advance dt) (filter (alive dt) layer).
Proof.
  unfold spfx_update_layer. apply (update_layer_from_app dt layer []).
Qed.

(** Positions in a filtered list come from positions of the list, in the
    same order. *)
Lemma filter_keeps_order {A} (f : A -> bool) (l : list A) i j a b :
  (i < j)%nat ->
  nth_error (filter f l) i = Some a ->
  nth_error (filter f l) j = Some b ->
  exists i' j', (i' < j')%nat /\ nth_error l i' = Some a /\
                nth_error l j' = Some b.
Proof.
  revert i j. induction l as [|x l IH]; intros i j Hij Ha Hb.
  - destruct i; discriminate.
  - simpl in Ha, Hb. destruct (f x).
    + destruct j as [|j]; [lia|]. destruct i as [|i].
      * simpl in Ha, Hb. injection Ha as <-.
        assert (Hin : In b l).
        { apply nth_error_In in Hb. apply filter_In in Hb. tauto. }
        apply In_nth_error in Hin. destruct Hin as [k Hk].
        exists O, (S k). repeat split; auto. lia.
      * simpl in Ha, Hb.
        destruct (IH i j ltac:(lia) Ha Hb) as (i' & j' & H1 & H2 & H3).
        exists (S i'), (S j'). repeat split; auto. lia.
    + destruct (IH i j Hij Ha Hb) as (i' & j' & H1 & H2 & H3).
      exists (S i'), (S j'). repeat split; auto. lia.
Qed.

(** C10: [spfx_update_layer] returns the surviving instances (decremented
    timer not below zero), each one advanced, in the order they had in the
    pool: any two instances of the result come from two instances of the
    pool that stood in the same order. *)
Theorem spfx_update_layer_keeps_order (layer : list SPFX) (dt : Q) :
  spfx_update_layer layer dt = map (advance dt) (filter (alive dt) layer) /\
  forall i j a b,
    (i < j)%nat ->
    nth_error (spfx_update_layer layer dt) i = Some a ->
    nth_error (spfx_update_layer layer dt) j = Some b ->
    exists i' j' a' b',
      (i' < j')%nat /\
      nth_error layer i' = Some a' /\ nth_error layer j' = Some b' /\
      alive dt a' = true /\ alive dt b' = true /\
      a = advance dt a' /\ b = advance dt b'.
Proof.
  split; [apply spfx_update_layer_filter|].
  intros i j a b Hij Ha Hb. rewrite spfx_update_layer_filter in Ha, Hb.
  rewrite nth_error_map in Ha, Hb.
  destruct (nth_error (filter (alive dt) layer) i) as [a'|] eqn:Ea;
    [|discriminate].
  destruct (nth_error (filter (alive dt) layer) j) as [b'|] eqn:Eb;
    [|discriminate].
  simpl in Ha, Hb. injection Ha as <-. injection Hb as <-.
  destruct (filter_keeps_order _ _ _ _ _ _ Hij Ea Eb) as (i' & j' & H1 & H2 & H3).
  exists i', j', a', b'. repeat split; auto.
  - apply nth_error_In in Ea. apply filter_In in Ea. tauto.
  - apply nth_error_In in Eb. apply filter_In in Eb. tauto.
Qed.

(** ** Updates by [dt = 0] *)

Lemma SPFX_eq_refl s : SPFX_eq s s.
Proof. unfold SPFX_eq, Vector2d_eq. repeat split; reflexivity. Qed.

Lemma SPFX_eq_trans s1 s2 s3 : SPFX_eq s1 s2 -> SPFX_eq s2 s3 -> SPFX_eq s1 s3.
Proof.
  unfold SPFX_eq, Vector2d_eq.
  intros ((A1 & A2) & (A3 & A4) & A5 & A6 & A7)
         ((B1 & B2) & (B3 & B4) & B5 & B6 & B7).
  repeat split; try congruence; etransitivity; eassumption.
Qed.

Lemma Forall2_SPFX_eq_trans l1 l2 l3 :
  Forall2 SPFX_eq l1 l2 -> Forall2 SPFX_eq l2 l3 -> Forall2 SPFX_eq l1 l3.
Proof.
  intro H. revert l3. induction H as [|a b l1 l2 Hab H IH]; intros l3 H3.
  - inversion H3. constructor.
  - inversion H3 as [|? c ? l3' Hbc H3']; subst. constructor.
    + eapply SPFX_eq_trans; eassumption.
    + apply IH. assumption.
Qed.

Lemma Forall2_SPFX_eq_timers l1 l2 :
  Forall2 SPFX_eq l1 l2 ->
  Forall (fun s => 0 <= timer s) l2 -> Forall (fun s => 0 <= timer s) l1.
Proof.
  induction 1 as [|a b l1 l2 Hab H IH]; intro Hl; [constructor|].
  inversion Hl; subst. constructor; [|auto].
  destruct Hab as (_ & _ & _ & _ & Ht). rewrite Ht. assumption.
Qed.

Lemma advance_zero dt s : dt == 0 -> SPFX_eq (advance dt s) s.
Proof.
  intro Hdt. unfold SPFX_eq, Vector2d_eq, advance, vect_cadd. simpl.
  repeat split; try reflexivity; rewrite Hdt; ring.
Qed.

Lemma alive_zero dt s : dt == 0 -> 0 <= timer s -> alive dt s = true.
Proof.
  intros Hdt Ht. unfold alive. rewrite negb_true_iff. apply Qltb_false.
  rewrite Hdt. lra.
Qed.

Lemma spfx_update_layer_zero dt layer :
  dt == 0 -> Forall (fun s => 0 <= timer s) layer ->
  Forall2 SPFX_eq (spfx_update_layer layer dt) layer.
Proof.
  intros Hdt Hl. rewrite spfx_update_layer_filter.
  induction Hl as [|s l Hs Hl IH]; simpl; [constructor|].
  rewrite (alive_zero dt s Hdt Hs). simpl. constructor; [|exact IH].
  apply advance_zero. exact Hdt.
Qed.

(** C9: with [dt = 0], and timers that are not negative, any number of
    calls of [spfx_update] leaves both pools as they are: the same
    instances in the same places, each with its position, velocity and
    timer numerically unchanged; the catalog is untouched. *)
Theorem spfx_update_zero_unchanged (w : world) (dt : Q) (n : nat) :
  dt == 0 ->
  Forall (fun s => 0 <= timer s) (spfx_stack_front w) ->
  Forall (fun s => 0 <= timer s) (spfx_stack_back w) ->
  Forall2 SPFX_eq (spfx_stack_front (Nat.iter n (spfx_update dt) w))
                  (spfx_stack_front w) /\
  Forall2 SPFX_eq (spfx_stack_back (Nat.iter n (spfx_update dt) w))
                  (spfx_stack_back w) /\
  length (spfx_stack_front (Nat.iter n (spfx_update dt) w))
    = length (spfx_stack_front w) /\
  length (spfx_stack_back (Nat.iter n (spfx_update dt) w))
    = length (spfx_stack_back w) /\
  spfx_effects (Nat.iter n (spfx_update dt) w) = spfx_effects w.
Proof.
  intros Hdt Hf Hb.
  assert (H : Forall2 SPFX_eq (spfx_stack_front (Nat.iter n (spfx_update dt) w))
                (spfx_stack_front w) /\
              Forall2 SPFX_eq (spfx_stack_back (Nat.iter n (spfx_update dt) w))
                (spfx_stack_back w) /\
              spfx_effects (Nat.iter n (spfx_update dt) w) = spfx_effects w).
  { induction n as [|n IH].
    - simpl. repeat split.
      + clear. induction (spfx_stack_front w); constructor;
          auto using SPFX_eq_refl.
      + clear. induction (spfx_stack_back w); constructor;
          auto using SPFX_eq_refl.
    - destruct IH as (IHf & IHb & IHe). simpl Nat.iter.
      set (w' := Nat.iter n (spfx_update dt) w) in *.
      unfold spfx_update. simpl. repeat split; [| |exact IHe].
      + eapply Forall2_SPFX_eq_trans; [|exact IHf].
        apply spfx_update_layer_zero; [exact Hdt|].
        eapply Forall2_SPFX_eq_timers; eassumption.
      + eapply Forall2_SPFX_eq_trans; [|exact IHb].
        apply spfx_update_layer_zero; [exact Hdt|].
        eapply Forall2_SPFX_eq_timers; eassumption. }
  destruct H as (H1 & H2 & H3). repeat split; auto.
  - eapply Forall2_length; eassumption.
  - eapply Forall2_length; eassumption.
Qed.

Lemma spfx_update_zero_unchanged_witness :
  Forall2 SPFX_eq (spfx_stack_front (Nat.iter 3 (spfx_update 0) pool_example))
                  (spfx_stack_front pool_example) /\
  Forall2 SPFX_eq (spfx_stack_back (Nat.iter 3 (spfx_update 0) pool_example))
                  (spfx_stack_back pool_example) /\
  length (spfx_stack_front (Nat.iter 3 (spfx_update 0) pool_example)) = 2%nat /\
  length (spfx_stack_back (Nat.iter 3 (spfx_update 0) pool_example)) = 1%nat /\
  spfx_effects (Nat.iter 3 (spfx_update 0) pool_example)
    = spfx_effects pool_example.
Proof.
  apply (spfx_update_zero_unchanged pool_example 0 3).
  - reflexivity.
  - repeat constructor; simpl; discriminate.
  - repeat constructor; simpl; discriminate.
Defined.

(** ** Spawning *)

(** An index below zero or above the size of the catalog is refused:
    warning, nothing else changes. *)
Lemma spfx_add_refused junk frame0 rng e px py vx vy layer w :
  (e < 0 \/ array_size (spfx_effects w) < e)%Z ->
  spfx_add junk frame0 rng e px py vx vy layer w
  = WARN "Trying to add spfx with invalid effect!" w.
Proof.
  intro H. unfold spfx_add.
  replace ((e <? 0) || (e >? array_size (spfx_effects w)))%Z with true;
    [reflexivity|].
  symmetry. apply orb_true_iff. rewrite Z.ltb_lt, Z.gtb_ltb, Z.ltb_lt. lia.
Qed.

(** C1, the code at [effect == array_size(spfx_effects)]: the test
    [effect > array_size(spfx_effects)] lets the index through, no warning
    is written and an instance is appended to the front pool, its timer
    computed from the slot one past the end of the catalog. *)
Theorem spfx_add_effect_at_size_appends junk frame0 rng px py vx vy
    (w : world) :
  let e := array_size (spfx_effects w) in
  let w' := spfx_add junk frame0 rng e px py vx vy SPFX_LAYER_FRONT w in
  spfx_stack_front w'
    = spfx_stack_front w
      ++ [mkSPFX (mkVector2d px py) (mkVector2d vx vy) frame0 e
            (spawn_timer junk rng)] /\
  warnings w' = warnings w /\
  length (spfx_stack_front w') = S (length (spfx_stack_front w)).
Proof.
  intros e w'. unfold w', spfx_add, e.
  assert (H0 : (array_size (spfx_effects w) <? 0)%Z = false)
    by (apply Z.ltb_ge; unfold array_size; lia).
  assert (H1 : (array_size (spfx_effects w) >? array_size (spfx_effects w))%Z
               = false) by (rewrite Z.gtb_ltb; apply Z.ltb_irrefl).
  rewrite H0, H1. simpl.
  unfold effect_at. rewrite H0. unfold array_size. rewrite Nat2Z.id.
  rewrite nth_overflow by lia.
  unfold array_push_back, vect_csetmin. repeat split.
  rewrite length_app. simpl. lia.
Qed.

(** C1 on the catalog of one template: index 1, the size of the catalog,
    spawns. *)
Example spfx_add_effect_at_size_example :
  let w' := spfx_add junk_base 0 0 1 0 0 0 0
              SPFX_LAYER_FRONT pool_example in
  length (spfx_stack_front pool_example) = 2%nat /\
  length (spfx_stack_front w') = 3%nat /\ warnings w' = [].
Proof. vm_compute. repeat split. Qed.

(** C4, the code: [spfx_clear] resets the shake and nothing else; both
    pools and the catalog are what they were. *)
Theorem spfx_clear_keeps_pools (w : world) :
  spfx_stack_front (spfx_clear w) = spfx_stack_front w /\
  spfx_stack_back (spfx_clear w) = spfx_stack_back w /\
  spfx_effects (spfx_clear w) = spfx_effects w.
Proof. repeat split. Qed.

(** C4 on a state with three live instances: they are still there after
    [spfx_clear]. *)
Example spfx_clear_example :
  length (spfx_stack_front (spfx_clear pool_example)) = 2%nat /\
  length (spfx_stack_back (spfx_clear pool_example)) = 1%nat.
Proof. split; reflexivity. Qed.

Lemma effect_at_valid (catalog : list SPFX_Base) junk e :
  (0 <= e < array_size catalog)%Z ->
  nth_error catalog (Z.to_nat e) = Some (effect_at catalog junk e).
Proof.
  unfold array_size, effect_at. intro He.
  replace (e <? 0)%Z with false by (symmetry; apply Z.ltb_ge; lia).
  apply nth_error_nth'. lia.
Qed.



(** The timer of the looping template of the examples with [RNGF() = 1/2]:
    3 + 1/2. *)
Example spfx_add_timer_example :
  map timer
    (spfx_stack_back
       (spfx_add looping_base 0 (1 # 2) 0 1 2 3 4 SPFX_LAYER_BACK
          looping_example))
  = [3 + (1 # 2) * 1].
Proof. reflexivity. Qed.

(** ** Trails *)

Lemma array_back_app {A} (a : list A) x : array_back (a ++ [x]) = Some x.
Proof.
  unfold array_back. rewrite map_app. simpl. apply last_last.
Qed.

Lemma array_back_map {A B} (f : A -> B) (a : list A) :
  array_back (map f a) = option_map f (array_back a).
Proof.
  destruct a as [|x a] using rev_ind; [reflexivity|].
  rewrite map_app. simpl map. rewrite !array_back_app. reflexivity.
Qed.

(** The scan from index [n-1] down stops at the first point older than 50
    and erases what is before it; that point stays. *)
Lemma trail_trim_from_found (pts : list trailPoint) i pt n :
  (i < n)%nat -> (n <= length pts)%nat ->
  nth_error pts i = Some pt -> 50 < tp_t pt ->
  (forall j pj, (i < j)%nat -> nth_error pts j = Some pj -> tp_t pj <= 50) ->
  trail_trim_from n pts = skipn i pts.
Proof.
  intros Hin Hn Hpt Hover Hlater. induction n as [|n IH]; [lia|].
  simpl. destruct (nth_error pts n) as [q|] eqn:Eq.
  - destruct (Nat.eq_dec i n) as [->|Hne].
    + rewrite Hpt in Eq. injection Eq as <-.
      cmp_true (Qgtb (tp_t pt) 50).
      reflexivity.
    + replace (Qgtb (tp_t q) 50) with false.
      * apply IH; lia.
      * symmetry. apply Qgtb_false. apply (Hlater n q); [lia|exact Eq].
  - apply nth_error_None in Eq. lia.
Qed.

(** Without a point older than 50 the scan erases nothing. *)
Lemma trail_trim_from_none (pts : list trailPoint) n :
  Forall (fun pt => tp_t pt <= 50) pts -> trail_trim_from n pts = pts.
Proof.
  intro H. induction n as [|n IH]; [reflexivity|].
  simpl. destruct (nth_error pts n) as [q|] eqn:Eq; [|reflexivity].
  replace (Qgtb (tp_t q) 50) with false; [exact IH|].
  symmetry. apply Qgtb_false. rewrite Forall_forall in H. apply H.
  eapply nth_error_In. exact Eq.
Qed.

Lemma spfx_trail_update_points trail dt :
  points (fst (spfx_trail_update trail dt))
  = trail_trim_from (length (points trail))
      (map (trail_age dt) (points trail)).
Proof.
  unfold spfx_trail_update, array_size. destruct trail as [pts]. simpl.
  destruct pts as [|p pts]; [reflexivity|].
  replace (Z.of_nat (length (p :: pts)) =? 0)%Z with false
    by (symmetry; apply Z.eqb_neq; simpl; lia).
  simpl fst. simpl points. rewrite length_map. reflexivity.
Qed.

(** C2 as the code has it: after ageing, when [pt], at index [i], is the
    first point older than 50 met from the tail, the update removes the
    points before [pt] in one cut and nothing else; [pt] itself stays, at
    the head.  A trail whose tail point is older than 50 is left with
    that one point. *)
Theorem spfx_trail_update_trim (trail : Trail_spfx) (dt : Q) (i : nat)
    (pt : trailPoint) :
  nth_error (map (trail_age dt) (points trail)) i = Some pt ->
  TRAIL_RETENTION < tp_t pt ->
  (forall j pj, (i < j)%nat ->
     nth_error (map (trail_age dt) (points trail)) j = Some pj ->
     tp_t pj <= TRAIL_RETENTION) ->
  points (fst (spfx_trail_update trail dt))
    = skipn i (map (trail_age dt) (points trail)) /\
  (S i = length (points trail) ->
   points (fst (spfx_trail_update trail dt)) = [pt]).
Proof.
  intros Hpt Hover Hlater. rewrite spfx_trail_update_points.
  assert (Hi : (i < length (map (trail_age dt) (points trail)))%nat)
    by (apply nth_error_Some; congruence).
  rewrite length_map in Hi.
  assert (Hcut : trail_trim_from (length (points trail))
                   (map (trail_age dt) (points trail))
                 = skipn i (map (trail_age dt) (points trail))).
  { apply trail_trim_from_found with (pt := pt); auto.
    rewrite length_map. lia. }
  split; [exact Hcut|]. intro Hlast. rewrite Hcut.
  set (aged := map (trail_age dt) (points trail)) in *.
  assert (Hlen : length aged = S i) by (unfold aged; rewrite length_map; lia).
  rewrite <- (firstn_skipn i aged) in Hpt.
  rewrite nth_error_app2 in Hpt by (rewrite length_firstn; lia).
  rewrite length_firstn in Hpt.
  replace (i - Nat.min i (length aged))%nat with O in Hpt by lia.
  assert (Hs : length (skipn i aged) = 1%nat) by (rewrite length_skipn; lia).
  destruct (skipn i aged) as [|q [|q' r]]; simpl in Hs; try discriminate.
  simpl in Hpt. congruence.
Qed.

Lemma spfx_trail_update_trim_witness :
  points (fst (spfx_trail_update old_trail_example 0))
    = skipn 2 (map (trail_age 0) (points old_trail_example)) /\
  (3%nat = length (points old_trail_example) ->
   points (fst (spfx_trail_update old_trail_example 0))
     = [trail_age 0 (tpt 60)]).
Proof.
  apply (spfx_trail_update_trim old_trail_example 0 2 (trail_age 0 (tpt 60))).
  - reflexivity.
  - reflexivity.
  - intros [|[|[|j]]] pj Hj Hnth; try lia. destruct j; discriminate.
Defined.

(** A trail without a point older than 50 is aged and not cut. *)
Lemma spfx_trail_update_no_trim (trail : Trail_spfx) (dt : Q) :
  Forall (fun pt => tp_t pt + dt <= TRAIL_RETENTION) (points trail) ->
  points (fst (spfx_trail_update trail dt))
  = map (trail_age dt) (points trail).
Proof.
  intro H. rewrite spfx_trail_update_points. apply trail_trim_from_none.
  apply Forall_map. exact H.
Qed.

(** C2 as the claim has it fails on the example of the specification:
    after [update(0)] on the ages 0, 10, 60 the tail point, older than 50,
    is the first one met from the tail; it is not removed and the trail is
    not empty. *)
Lemma spfx_trail_update_trim_counterexample :
  array_back (map (trail_age 0) (points trail_example))
    = Some (trail_age 0 (tpt 60)) /\
  TRAIL_RETENTION < tp_t (trail_age 0 (tpt 60)) /\
  points (fst (spfx_trail_update trail_example 0)) = [trail_age 0 (tpt 60)] /\
  points (fst (spfx_trail_update trail_example 0))
    <> skipn 3 (map (trail_age 0) (points trail_example)) /\
  points (fst (spfx_trail_update trail_example 0)) <> [].
Proof.
  repeat split; try reflexivity; vm_compute; discriminate.
Qed.

(** The same on a trail in the order of its invariant, oldest first: the
    head, older than 50, is the point found and nothing is erased. *)
Example spfx_trail_update_keeps_old_head :
  points (fst (spfx_trail_update (mkTrail [tpt 60; tpt 10; tpt 0]) 0))
  = map (trail_age 0) [tpt 60; tpt 10; tpt 0].
Proof. reflexivity. Qed.


(** ** Rendering *)


Lemma Qfloor_nonneg (x : Q) : 0 <= x -> (0 <= Qfloor x)%Z.
Proof.
  intro H. change 0%Z with (Qfloor 0). apply Qfloor_resp_le. exact H.
Qed.












Lemma firstn_length_app {A} (a c : list A) : firstn (length a) (a ++ c) = a.
Proof.
  rewrite firstn_app, firstn_all, Nat.sub_diag. simpl. apply app_nil_r.
Qed.

Lemma skipn_length_app {A} (a c : list A) : skipn (length a) (a ++ c) = c.
Proof.
  rewrite skipn_app, skipn_all, Nat.sub_diag. reflexivity.
Qed.

(** The loop of [spfx_render] entered at [n]: the instances below [n] are
    drawn from the last to the first, each one keeps its place. *)
Lemma render_from_map paused catalog junk n : forall stack,
  (n <= length stack)%nat ->
  render_from paused catalog junk n stack
  = (map (fun s => fst (render_one paused
                          (effect_at catalog junk (effect s)) s))
         (firstn n stack) ++ skipn n stack,
     rev (map (fun s => snd (render_one paused
                          (effect_at catalog junk (effect s)) s))
            (firstn n stack))).
Proof.
  induction n as [|i IH]; intros stack Hn; [reflexivity|].
  simpl render_from.
  destruct (nth_error stack i) as [s|] eqn:Es;
    [|apply nth_error_None in Es; lia].
  destruct (nth_error_split _ _ Es) as (a & c & -> & <-).
  unfold render_one at 1. cbv iota beta zeta.
  rewrite array_set_app. rewrite IH by (rewrite length_app; simpl; lia).
  rewrite firstn_length_app, skipn_length_app.
  replace (S (length a)) with (length (a ++ [s]))
    by (rewrite length_app; simpl; lia).
  change (a ++ s :: c) with (a ++ [s] ++ c). rewrite app_assoc.
  rewrite firstn_length_app, skipn_length_app.
  rewrite !map_app, rev_app_distr. cbn [map rev app].
  unfold render_one. cbn [fst snd]. rewrite <- app_assoc. reflexivity.
Qed.





(** The scenario of the specification: a 4x4 explosion of one second,
    half a second after it was spawned, shows frame 8, column 0 of
    row 2. *)
Example spfx_render_scenario :
  let b := mkBase "explosion" 1 1 (mkTexture 4 4) in
  let w0 := spfx_load [b] (-1) in
  let w1 := spfx_add b 0 0 (spfx_get w0 "explosion") 0 0 0 0
              SPFX_LAYER_FRONT w0 in
  let w2 := spfx_update (1 # 2) w1 in
  map lastframe (spfx_stack_front (fst (spfx_render false b SPFX_LAYER_FRONT w2)))
    = [8%Z] /\
  map (fun d => (blit_sx d, blit_sy d))
      (snd (spfx_render false b SPFX_LAYER_FRONT w2)) = [(0%Z, 2%Z)].
Proof. vm_compute. split; reflexivity. Qed.

(** ** The control loop of [spfx_begin] *)

(** The loop [while (ddt > shake_fps_min)], one turn unfolded. *)
Lemma substep_loop_step {St} (tick : Q -> St -> St) ddt s :
  substep_loop tick ddt s =
  if Qgtb ddt shake_fps_min
  then substep_loop tick (ddt - shake_fps_min) (tick shake_fps_min s)
  else (ddt, s).
Proof.
  funelim (substep_loop tick ddt s).
  - rewrite e. reflexivity.
  - rewrite e. reflexivity.
Qed.

(** The loop ends, after a number [k] of full steps that depends on [ddt]
    alone; what it leaves is at most one step, and positive when [ddt]
    is. *)
Lemma substep_loop_run (ddt : Q) :
  exists k : nat,
    (forall St (tick : Q -> St -> St) (s : St),
       substep_loop tick ddt s
       = (leftover k ddt,
          fold_left (fun s h => tick h s) (repeat shake_fps_min k) s)) /\
    leftover k ddt <= shake_fps_min /\
    (0 < ddt -> 0 < leftover k ddt) /\
    leftover k ddt == ddt - inject_Z (Z.of_nat k) * shake_fps_min /\
    (ddt <= shake_fps_min -> k = O) /\
    (shake_fps_min < ddt -> (1 <= k)%nat).
Proof.
  refine (substep_loop_elim
    (fun _ _ ddt _ _ =>
       exists k : nat,
         (forall St (tick : Q -> St -> St) (s : St),
            substep_loop tick ddt s
            = (leftover k ddt,
               fold_left (fun s h => tick h s) (repeat shake_fps_min k) s)) /\
         leftover k ddt <= shake_fps_min /\
         (0 < ddt -> 0 < leftover k ddt) /\
         leftover k ddt == ddt - inject_Z (Z.of_nat k) * shake_fps_min /\
         (ddt <= shake_fps_min -> k = O) /\
         (shake_fps_min < ddt -> (1 <= k)%nat)) _ _ unit (fun _ u => u) ddt tt).
  - clear ddt. intros _ _ ddt e _ (k & Hrun & Hle & Hpos & Heq & H0 & H1) _.
    apply Qgtb_true in e. exists (S k). repeat split.
    + intros St tick s. rewrite substep_loop_step.
      cmp_true (Qgtb ddt shake_fps_min).
      rewrite Hrun. reflexivity.
    + exact Hle.
    + intros _. simpl. destruct (Qlt_le_dec shake_fps_min (ddt - shake_fps_min)) as [Hgt|Hsm].
      * apply Hpos. unfold shake_fps_min in *. lra.
      * apply Hpos. lra.
    + simpl leftover. rewrite Heq, Nat2Z.inj_succ. unfold Z.succ.
      rewrite inject_Z_plus. change (inject_Z 1) with 1. ring.
    + intro. lra.
    + intro. lia.
  - clear ddt. intros _ _ ddt e _ _. apply Qgtb_false in e.
    exists O. repeat split.
    + intros St tick s. rewrite substep_loop_step.
      cmp_false (Qgtb ddt shake_fps_min).
      reflexivity.
    + exact e.
    + auto.
    + simpl. ring.
    + intro. lra.
Qed.

Lemma fold_left_record (l acc : list Q) :
  fold_left (fun (log : list Q) h => log ++ [h]) l acc = acc ++ l.
Proof.
  revert acc. induction l as [|h l IH]; intro acc; simpl.
  - symmetry. apply app_nil_r.
  - rewrite IH, <- app_assoc. reflexivity.
Qed.

(** The control loop makes [k] full steps and one last step with what is
    left, whatever the update function. *)
Lemma shake_control_loop_run (dt : Q) :
  exists k : nat,
    (forall St (tick : Q -> St -> St) (s : St),
       shake_control_loop tick dt s
       = fold_left (fun s h => tick h s)
           (repeat shake_fps_min k ++ [leftover k dt]) s) /\
    leftover k dt <= shake_fps_min /\
    (0 < dt -> 0 < leftover k dt) /\
    leftover k dt == dt - inject_Z (Z.of_nat k) * shake_fps_min /\
    (dt <= shake_fps_min -> k = O) /\
    (shake_fps_min < dt -> (1 <= k)%nat).
Proof.
  destruct (substep_loop_run dt) as (k & Hrun & Hle & Hpos & Heq & H0 & H1).
  exists k. repeat split; auto.
  intros St tick s. unfold shake_control_loop.
  rewrite fold_left_app. simpl.
  destruct (Qgtb dt shake_fps_min) eqn:E.
  - rewrite Hrun. reflexivity.
  - apply Qgtb_false in E. rewrite (H0 E). reflexivity.
Qed.

Lemma Qsum_app (l1 l2 : list Q) : Qsum (l1 ++ l2) == Qsum l1 + Qsum l2.
Proof.
  induction l1 as [|x l1 IH]; simpl.
  - ring.
  - unfold Qsum in *. simpl. rewrite IH. ring.
Qed.

Lemma Qsum_repeat (x : Q) (k : nat) :
  Qsum (repeat x k) == inject_Z (Z.of_nat k) * x.
Proof.
  induction k as [|k IH].
  - simpl. ring.
  - rewrite Nat2Z.inj_succ. unfold Z.succ. rewrite inject_Z_plus.
    change (inject_Z 1) with 1. unfold Qsum in *. simpl. rewrite IH. ring.
Qed.

(** ** Rounding to a double *)

Lemma pow2_pos (e : Z) : 0 < pow2 e.
Proof. apply Qpower_0_lt. reflexivity. Qed.

Lemma pow2_add (a b : Z) : pow2 (a + b) == pow2 a * pow2 b.
Proof. apply Qpower_plus. discriminate. Qed.

Lemma pow2_le (a b : Z) : (a <= b)%Z -> pow2 a <= pow2 b.
Proof. intro H. apply Qpower_le_compat_l; [exact H|discriminate]. Qed.

Lemma pow2_lt_inv (a b : Z) : pow2 a < pow2 b -> (a < b)%Z.
Proof. intro H. apply (Qpower_lt_compat_l_inv 2); [exact H|reflexivity]. Qed.

Lemma pow2_inject (a : Z) : (0 <= a)%Z -> inject_Z (2 ^ a) == pow2 a.
Proof. intro H. unfold pow2. rewrite Zpower_Qpower by exact H. reflexivity. Qed.

(** [ilog2 x] is not above the exponent of [x]. *)
Lemma ilog2_le (x : Q) : 0 < x -> pow2 (ilog2 x) <= x.
Proof.
  intro Hx. unfold ilog2.
  set (a := Z.log2 (Qnum x)). set (b := Z.log2 (Zpos (Qden x))).
  destruct (Qle_bool (pow2 (a - b)) x) eqn:E.
  - apply Qle_bool_iff. exact E.
  - assert (Hn : (0 < Qnum x)%Z).
    { destruct x as [n d]. unfold Qlt in Hx. simpl in *. lia. }
    destruct (Z.log2_spec (Qnum x) Hn) as [Ha _]. fold a in Ha.
    destruct (Z.log2_spec (Zpos (Qden x)) eq_refl) as [_ Hb]. fold b in Hb.
    assert (Ha0 : (0 <= a)%Z) by apply Z.log2_nonneg.
    assert (Hb0 : (0 <= b)%Z) by apply Z.log2_nonneg.
    assert (Hnq : pow2 a <= inject_Z (Qnum x)).
    { rewrite <- pow2_inject by exact Ha0. rewrite <- Zle_Qle. exact Ha. }
    assert (Hdq : inject_Z (Zpos (Qden x)) <= pow2 (b + 1)).
    { replace (b + 1)%Z with (Z.succ b) by lia.
      rewrite <- pow2_inject by lia. rewrite <- Zle_Qle. lia. }
    assert (Hd0 : 0 < inject_Z (Zpos (Qden x))) by reflexivity.
    assert (Ex : x == inject_Z (Qnum x) / inject_Z (Zpos (Qden x))).
    { destruct x as [n d]. simpl. apply Qmake_Qdiv. }
    assert (Ep : pow2 a == pow2 (a - b - 1) * pow2 (b + 1)).
    { rewrite <- pow2_add. replace (a - b - 1 + (b + 1))%Z with a by lia.
      reflexivity. }
    pose proof (pow2_pos (a - b - 1)) as Hp.
    rewrite Ex. apply Qle_shift_div_l; [exact Hd0|].
    set (p := pow2 (a - b - 1)) in *. set (q := pow2 (b + 1)) in *.
    set (n := inject_Z (Qnum x)) in *. set (d := inject_Z (Zpos (Qden x))) in *.
    nra.
Qed.

(** [ilog2 x] is not below the exponent of [x]. *)
Lemma ilog2_lt (x : Q) : 0 < x -> x < pow2 (ilog2 x + 1).
Proof.
  intro Hx. unfold ilog2.
  set (a := Z.log2 (Qnum x)). set (b := Z.log2 (Zpos (Qden x))).
  destruct (Qle_bool (pow2 (a - b)) x) eqn:E.
  - assert (Hn : (0 < Qnum x)%Z).
    { destruct x as [n d]. unfold Qlt in Hx. simpl in *. lia. }
    destruct (Z.log2_spec (Qnum x) Hn) as [_ Ha]. fold a in Ha.
    destruct (Z.log2_spec (Zpos (Qden x)) eq_refl) as [Hb _]. fold b in Hb.
    assert (Ha0 : (0 <= a)%Z) by apply Z.log2_nonneg.
    assert (Hb0 : (0 <= b)%Z) by apply Z.log2_nonneg.
    assert (Hnq : inject_Z (Qnum x) < pow2 (a + 1)).
    { replace (a + 1)%Z with (Z.succ a) by lia.
      rewrite <- pow2_inject by lia. rewrite <- Zlt_Qlt. exact Ha. }
    assert (Hdq : pow2 b <= inject_Z (Zpos (Qden x))).
    { rewrite <- pow2_inject by exact Hb0. rewrite <- Zle_Qle. exact Hb. }
    assert (Hd0 : 0 < inject_Z (Zpos (Qden x))) by reflexivity.
    assert (Ex : x == inject_Z (Qnum x) / inject_Z (Zpos (Qden x))).
    { destruct x as [n d]. simpl. apply Qmake_Qdiv. }
    assert (Ep : pow2 (a + 1) == pow2 (a - b + 1) * pow2 b).
    { rewrite <- pow2_add. replace (a - b + 1 + b)%Z with (a + 1)%Z by lia.
      reflexivity. }
    pose proof (pow2_pos (a - b + 1)) as Hp.
    rewrite Ex. apply Qlt_shift_div_r; [exact Hd0|].
    set (p := pow2 (a - b + 1)) in *. set (q := pow2 b) in *.
    set (n := inject_Z (Qnum x)) in *. set (d := inject_Z (Zpos (Qden x))) in *.
    nra.
  - replace (a - b - 1 + 1)%Z with (a - b)%Z by lia.
    destruct (Qlt_le_dec x (pow2 (a - b))) as [H|H]; [exact H|].
    apply Qle_bool_iff in H. congruence.
Qed.

(** The nearest integer is within a half. *)
Lemma rne_near (x : Q) :
  x - (1 # 2) <= inject_Z (rne x) /\ inject_Z (rne x) <= x + (1 # 2).
Proof.
  unfold rne.
  pose proof (Qfloor_le x) as H1. pose proof (Qlt_floor x) as H2.
  rewrite inject_Z_plus in H2. change (inject_Z 1) with 1 in H2.
  destruct (Qcompare (x - inject_Z (Qfloor x)) (1 # 2)) eqn:E.
  - apply Qeq_alt in E.
    destruct (Z.even (Qfloor x));
      [|rewrite inject_Z_plus; change (inject_Z 1) with 1]; lra.
  - apply Qlt_alt in E. lra.
  - apply Qgt_alt in E. rewrite inject_Z_plus.
    change (inject_Z 1) with 1. lra.
Qed.

Lemma rne_mono_floor (x : Q) : (Qfloor x <= rne x)%Z.
Proof.
  unfold rne. destruct (Qcompare _ _); [destruct (Z.even _)| |]; lia.
Qed.

(** A positive number rounds to a positive double, within half a unit
    of its binade. *)
Lemma round_pos_near (x : Q) :
  0 < x ->
  0 < round_pos x /\
  x - pow2 (ilog2 x - 53) <= round_pos x /\
  round_pos x <= x + pow2 (ilog2 x - 53).
Proof.
  intro Hx. unfold round_pos.
  set (e := ilog2 x). set (u := pow2 (e - 52)).
  assert (Hu : 0 < u) by apply pow2_pos.
  assert (Eh : u == 2 * pow2 (e - 53)).
  { unfold u. replace (e - 52)%Z with (1 + (e - 53))%Z by lia.
    rewrite pow2_add. reflexivity. }
  assert (Ex : x == (x / u) * u) by (field; lra).
  destruct (rne_near (x / u)) as [N1 N2].
  assert (Hlow : pow2 52 <= x / u).
  { apply Qle_shift_div_l; [exact Hu|]. unfold u. rewrite <- pow2_add.
    replace (52 + (e - 52))%Z with e by lia. apply ilog2_le. exact Hx. }
  assert (Hm : 1 <= inject_Z (rne (x / u))).
  { change 1 with (inject_Z 1). rewrite <- Zle_Qle.
    etransitivity; [|apply rne_mono_floor].
    change 1%Z with (Qfloor 1). apply Qfloor_resp_le.
    apply Qle_trans with (pow2 52); [vm_compute; discriminate|exact Hlow]. }
  set (m := inject_Z (rne (x / u))) in *. set (y := x / u) in *.
  set (h := pow2 (e - 53)) in *.
  repeat split; nra.
Qed.

(** A positive number below [2^m] rounds to a positive double within
    [2^(m-54)]. *)
Lemma round64_near (x : Q) (m : Z) :
  0 < x -> x < pow2 m ->
  0 < round64 x /\
  x - pow2 (m - 54) <= round64 x /\ round64 x <= x + pow2 (m - 54).
Proof.
  intros Hx Hm.
  assert (Er : round64 x = round_pos x).
  { unfold round64. destruct x as [[|p|p] d]; simpl;
      [unfold Qlt in Hx; simpl in Hx; lia|reflexivity|
       unfold Qlt in Hx; simpl in Hx; lia]. }
  rewrite Er. destruct (round_pos_near x Hx) as (R0 & R1 & R2).
  assert (He : (ilog2 x < m)%Z).
  { apply pow2_lt_inv. eapply Qle_lt_trans; [apply ilog2_le; exact Hx|exact Hm]. }
  assert (Hp : pow2 (ilog2 x - 53) <= pow2 (m - 54)) by (apply pow2_le; lia).
  repeat split; lra.
Qed.

(** The significand of the double nearest to a positive number has 53
    bits, or is [2^53], the first double of the next binade. *)
Lemma round_pos_format (x : Q) :
  0 < x ->
  let m := rne (x / pow2 (ilog2 x - 52)) in
  (2 ^ 52 <= m <= 2 ^ 53)%Z.
Proof.
  intro Hx. cbv zeta. set (e := ilog2 x). set (u := pow2 (e - 52)).
  assert (Hu : 0 < u) by apply pow2_pos.
  assert (Hlow : pow2 52 <= x / u).
  { apply Qle_shift_div_l; [exact Hu|]. unfold u. rewrite <- pow2_add.
    replace (52 + (e - 52))%Z with e by lia. apply ilog2_le. exact Hx. }
  assert (Hhigh : x / u < pow2 53).
  { apply Qlt_shift_div_r; [exact Hu|]. unfold u. rewrite <- pow2_add.
    replace (53 + (e - 52))%Z with (e + 1)%Z by lia. apply ilog2_lt.
    exact Hx. }
  destruct (rne_near (x / u)) as [N1 N2].
  pose proof (rne_mono_floor (x / u)) as Hf.
  split.
  - apply Z.le_trans with (Qfloor (x / u)); [|exact Hf].
    change (2 ^ 52)%Z with (Qfloor (pow2 52)). apply Qfloor_resp_le.
    exact Hlow.
  - assert (H : inject_Z (rne (x / u)) < inject_Z (2 ^ 53 + 1)).
    { change (inject_Z (2 ^ 53 + 1)) with (pow2 53 + 1). lra. }
    rewrite <- Zlt_Qlt in H. lia.
Qed.

(** ** The control loop of [spfx_begin] on doubles *)

Lemma shake_fps_min64_value :
  shake_fps_min64 == 3602879701896397 # 36028797018963968.
Proof. vm_compute. reflexivity. Qed.

(** As long as [ddt] is at most [2^50] a turn of the loop takes at least
    0.03 from it, so the loop ends: after a number [k] of full steps that
    depends on [ddt] alone it leaves a positive rest of at most one step,
    which is [ddt - k * shake_fps_min] up to the [k] roundings. *)
Lemma substep_loop64_run (m : Z) :
  (m <= 50)%Z ->
  forall (n : nat) (ddt : Q),
  0 < ddt -> ddt <= pow2 m ->
  ddt <= shake_fps_min64 + inject_Z (Z.of_nat n) * (3 # 100) ->
  exists k : nat,
    (forall St (tick : Q -> St -> St) (fuel : nat) (s : St),
       (k < fuel)%nat ->
       substep_loop64 tick fuel ddt s
       = Some (leftover64 k ddt,
               fold_left (fun s h => tick h s) (repeat shake_fps_min64 k) s)) /\
    (forall j, (j < k)%nat -> shake_fps_min64 < leftover64 j ddt) /\
    0 < leftover64 k ddt /\ leftover64 k ddt <= shake_fps_min64 /\
    ddt - inject_Z (Z.of_nat k) * pow2 (m - 54)
      <= leftover64 k ddt + inject_Z (Z.of_nat k) * shake_fps_min64 /\
    leftover64 k ddt + inject_Z (Z.of_nat k) * shake_fps_min64
      <= ddt + inject_Z (Z.of_nat k) * pow2 (m - 54) /\
    (ddt <= shake_fps_min64 -> k = O) /\
    (shake_fps_min64 < ddt -> (1 <= k)%nat).
Proof.
  intro Hm.
  pose proof shake_fps_min64_value as Hc.
  assert (Heps : pow2 (m - 54) <= 1 # 16).
  { change (1 # 16) with (pow2 (-4)). apply pow2_le. lia. }
  pose proof (pow2_pos (m - 54)) as Heps0.
  induction n as [|n IH]; intros ddt H0 Hmax Hn.
  - change (inject_Z (Z.of_nat 0)) with 0 in Hn.
    exists O. simpl leftover64. change (inject_Z (Z.of_nat 0)) with 0.
    split; [|split; [|split; [|split; [|split; [|split; [|split]]]]]].
    + intros St tick [|fuel] s Hf; [lia|]. simpl.
      cmp_false (Qgtb ddt shake_fps_min64). reflexivity.
    + intros j Hj. lia.
    + exact H0.
    + lra.
    + lra.
    + lra.
    + reflexivity.
    + intro. lra.
  - destruct (Qgtb ddt shake_fps_min64) eqn:Egt.
    + apply Qgtb_true in Egt.
      destruct (round64_near (ddt - shake_fps_min64) m) as (R0 & R1 & R2);
        [lra|lra|].
      set (ddt' := round64 (ddt - shake_fps_min64)) in *.
      rewrite Nat2Z.inj_succ in Hn. unfold Z.succ in Hn.
      rewrite inject_Z_plus in Hn. change (inject_Z 1) with 1 in Hn.
      destruct (IH ddt' R0) as (k & Hrun & Hfull & Hp & Hle & E1 & E2 & _ & _);
        [lra|lra|].
      exists (S k). simpl leftover64. fold ddt'.
      rewrite Nat2Z.inj_succ. unfold Z.succ. rewrite inject_Z_plus.
      change (inject_Z 1) with 1.
      split; [|split; [|split; [|split; [|split; [|split; [|split]]]]]].
      * intros St tick [|fuel] s Hf; [lia|]. simpl.
        cmp_true (Qgtb ddt shake_fps_min64). fold ddt'.
        apply Hrun. lia.
      * intros [|j] Hj; simpl leftover64; [exact Egt|].
        fold ddt'. apply Hfull. lia.
      * exact Hp.
      * exact Hle.
      * lra.
      * lra.
      * intro. lra.
      * intro. lia.
    + apply Qgtb_false in Egt.
      exists O. simpl leftover64. change (inject_Z (Z.of_nat 0)) with 0.
      split; [|split; [|split; [|split; [|split; [|split; [|split]]]]]].
      * intros St tick [|fuel] s Hf; [lia|]. simpl.
        cmp_false (Qgtb ddt shake_fps_min64). reflexivity.
      * intros j Hj. lia.
      * exact H0.
      * exact Egt.
      * lra.
      * lra.
      * reflexivity.
      * intro. lra.
Qed.

(** The control loop on doubles makes [k] full steps and one last step
    with what is left, whatever the update function. *)
Lemma shake_control_loop64_run (m : Z) (dt : Q) :
  (m <= 50)%Z -> 0 < dt -> dt <= pow2 m ->
  exists k : nat,
    (forall St (tick : Q -> St -> St) (fuel : nat) (s : St),
       (k < fuel)%nat ->
       shake_control_loop64 tick fuel dt s
       = Some (fold_left (fun s h => tick h s)
                 (repeat shake_fps_min64 k ++ [leftover64 k dt]) s)) /\
    (forall j, (j < k)%nat -> shake_fps_min64 < leftover64 j dt) /\
    0 < leftover64 k dt /\ leftover64 k dt <= shake_fps_min64 /\
    dt - inject_Z (Z.of_nat k) * pow2 (m - 54)
      <= leftover64 k dt + inject_Z (Z.of_nat k) * shake_fps_min64 /\
    leftover64 k dt + inject_Z (Z.of_nat k) * shake_fps_min64
      <= dt + inject_Z (Z.of_nat k) * pow2 (m - 54) /\
    (dt <= shake_fps_min64 -> k = O) /\
    (shake_fps_min64 < dt -> (1 <= k)%nat).
Proof.
  intros Hm H0 Hmax.
  set (n := Z.to_nat (Qceiling (dt * (100 # 3)))).
  assert (Hn : dt <= shake_fps_min64 + inject_Z (Z.of_nat n) * (3 # 100)).
  { pose proof (Qle_ceiling (dt * (100 # 3))) as Hc.
    assert (Hz : (0 <= Qceiling (dt * (100 # 3)))%Z).
    { rewrite Zle_Qle. change (inject_Z 0) with 0. lra. }
    unfold n. rewrite Z2Nat.id by exact Hz.
    pose proof shake_fps_min64_value. lra. }
  destruct (substep_loop64_run m Hm n dt H0 Hmax Hn)
    as (k & Hrun & Hfull & Hp & Hle & E1 & E2 & Z0 & Z1).
  exists k. split; [|repeat split; auto].
  intros St tick fuel s Hf. unfold shake_control_loop64.
  rewrite fold_left_app. simpl.
  destruct (Qgtb dt shake_fps_min64) eqn:E.
  - rewrite (Hrun St tick fuel s Hf). reflexivity.
  - apply Qgtb_false in E. rewrite (Z0 E). reflexivity.
Qed.

(** X18: beyond [2^50] the subtraction can leave [ddt] as it is, and then
    the loop does not end: for a frame of [2^51] seconds no number of
    turns suffices. *)
Lemma substep_loop64_stuck (fuel : nat) : begin_steps64 fuel (pow2 51) = None.
Proof.
  unfold begin_steps64, shake_control_loop64.
  replace (Qgtb (pow2 51) shake_fps_min64) with true
    by (vm_compute; reflexivity).
  assert (H : forall f (log : list Q),
            substep_loop64 (fun h (log : list Q) => log ++ [h]) f
              (round64 (pow2 51 - shake_fps_min64)) log = None).
  { induction f as [|f IH]; intro log; [reflexivity|].
    cbn [substep_loop64].
    replace (Qgtb (round64 (pow2 51 - shake_fps_min64)) shake_fps_min64)
      with true by (vm_compute; reflexivity).
    replace (round64 (round64 (pow2 51 - shake_fps_min64) - shake_fps_min64))
      with (round64 (pow2 51 - shake_fps_min64))
      by (vm_compute; reflexivity).
    apply IH. }
  destruct fuel as [|f]; [reflexivity|]. cbn [substep_loop64].
  replace (Qgtb (pow2 51) shake_fps_min64) with true
    by (vm_compute; reflexivity).
  rewrite H. reflexivity.
Qed.

(** C6: when the shake is on and [0 < dt <= 2^m] with [m <= 50], the
    loop of [spfx_begin] on doubles ends, and [spfx_begin] calls
    [spfx_updateShake] once for each step of [begin_steps64], in order,
    and for nothing else.  The steps are positive and at most the double
    [shake_fps_min]; they are [k] full steps, made while the running
    rest [ddt], rounded at each subtraction, is more than
    [shake_fps_min], followed by one step with the rest that is left;
    there is no full step when [dt <= shake_fps_min] (the only step is
    [dt]) and at least one otherwise.  The steps add up to [dt] up to the
    roundings of the [k] subtractions, each at most [2^(m-54)]. *)
Theorem spfx_begin_substeps (E : externs) (rng dt real_dt : Q) (w : world)
    (m : Z) :
  0 < dt -> dt <= pow2 m -> (m <= 50)%Z -> shake_off w = false ->
  exists (k : nat) (r : Q),
    (forall fuel : nat, (k < fuel)%nat ->
       begin_steps64 fuel dt = Some (repeat shake_fps_min64 k ++ [r]) /\
       spfx_begin64 E rng fuel dt real_dt w
       = Some (begin_leave
                 (fold_left (fun s h => spfx_updateShake E rng h s)
                    (repeat shake_fps_min64 k ++ [r])
                    (begin_enter real_dt w)))) /\
    Forall (fun h => 0 < h /\ h <= shake_fps_min64)
      (repeat shake_fps_min64 k ++ [r]) /\
    r = leftover64 k dt /\
    (forall j : nat, (j < k)%nat -> shake_fps_min64 < leftover64 j dt) /\
    Qabs (Qsum (repeat shake_fps_min64 k ++ [r]) - dt)
      <= inject_Z (Z.of_nat k) * pow2 (m - 54) /\
    (dt <= shake_fps_min64 -> k = O /\ r = dt) /\
    (shake_fps_min64 < dt -> (1 <= k)%nat).
Proof.
  intros Hdt Hmax Hm Hon.
  destruct (shake_control_loop64_run m dt Hm Hdt Hmax)
    as (k & Hrun & Hfull & Hp & Hle & E1 & E2 & Z0 & Z1).
  exists k, (leftover64 k dt).
  split; [|split; [|split; [|split; [|split; [|split]]]]].
  - intros fuel Hf. split.
    + unfold begin_steps64. rewrite (Hrun _ _ fuel _ Hf), fold_left_record.
      reflexivity.
    + unfold spfx_begin64, begin_leave, begin_enter.
      cbn [shake_off set_shake]. rewrite Hon.
      rewrite (Hrun _ _ fuel _ Hf). reflexivity.
  - apply Forall_app. split.
    + apply Forall_forall. intros h Hh. apply repeat_spec in Hh. subst h.
      pose proof shake_fps_min64_value. split; lra.
    + constructor; [|constructor]. split; assumption.
  - reflexivity.
  - exact Hfull.
  - rewrite Qsum_app, Qsum_repeat. unfold Qsum at 1. simpl fold_right.
    apply Qabs_Qle_condition. split; lra.
  - intro Hsm. rewrite (Z0 Hsm). split; reflexivity.
  - exact Z1.
Qed.

(** A frame of a quarter of a second, which is at most [2^-2]. *)
Lemma spfx_begin_substeps_witness :
  exists (k : nat) (r : Q),
    (forall fuel : nat, (k < fuel)%nat ->
       begin_steps64 fuel (1 # 4) = Some (repeat shake_fps_min64 k ++ [r]) /\
       spfx_begin64 example_externs 0 fuel (1 # 4) (1 # 4) shaken_example
       = Some (begin_leave
                 (fold_left (fun s h => spfx_updateShake example_externs 0 h s)
                    (repeat shake_fps_min64 k ++ [r])
                    (begin_enter (1 # 4) shaken_example)))) /\
    Forall (fun h => 0 < h /\ h <= shake_fps_min64)
      (repeat shake_fps_min64 k ++ [r]) /\
    r = leftover64 k (1 # 4) /\
    (forall j : nat, (j < k)%nat -> shake_fps_min64 < leftover64 j (1 # 4)) /\
    Qabs (Qsum (repeat shake_fps_min64 k ++ [r]) - (1 # 4))
      <= inject_Z (Z.of_nat k) * pow2 (-2 - 54) /\
    ((1 # 4) <= shake_fps_min64 -> k = O /\ r = 1 # 4) /\
    (shake_fps_min64 < 1 # 4 -> (1 <= k)%nat).
Proof.
  apply (spfx_begin_substeps example_externs 0 (1 # 4) (1 # 4) shaken_example
           (-2)%Z).
  - reflexivity.
  - vm_compute. discriminate.
  - lia.
  - reflexivity.
Defined.

(** On doubles the steps of a frame of half a second are not the ones of
    the rationals.  After four full steps what is left of the half second
    is less than a step, but the rest [ddt], rounded four times, is above
    [shake_fps_min] by one unit in the last place: a fifth full step is
    made, and a sixth step of [2^-55] with what [ddt] has left.  The six
    steps add up to more than the half second. *)
Lemma spfx_begin_substeps_counterexample :
  begin_steps64 6 (1 # 2)
    = Some (repeat shake_fps_min64 5 ++ [leftover64 5 (1 # 2)]) /\
  (1 # 2) - 4 * shake_fps_min64 < shake_fps_min64 /\
  shake_fps_min64 < leftover64 4 (1 # 2) /\
  leftover64 5 (1 # 2) == pow2 (-55) /\
  Qsum (repeat shake_fps_min64 5 ++ [leftover64 5 (1 # 2)])
    == (1 # 2) + pow2 (-54) /\
  ~ Qsum (repeat shake_fps_min64 5 ++ [leftover64 5 (1 # 2)]) == 1 # 2.
Proof.
  vm_compute. repeat split; discriminate.
Qed.

(** The rounding written out gives what the doubles of the processor
    give: for [1./10.], for the rests of the loop on frames of half a
    second, of a hundred seconds and of [2^50] seconds, and on the frame
    of [2^51] seconds that the subtraction leaves as it is. *)
Module HardwareCheck.
Import PrimFloat Hardware.

Example round64_is_binary64 :
  float_value (1 / 10) == shake_fps_min64 /\
  Forall (fun k => float_value (leftover_float k 0.5) == leftover64 k (1 # 2))
    [1; 2; 3; 4; 5]%nat /\
  Forall (fun k => float_value (leftover_float k 100) == leftover64 k 100)
    [1; 10; 100; 999; 1000]%nat /\
  Forall (fun k => float_value (leftover_float k 0x1p50)
                   == leftover64 k (pow2 50))
    [1; 2; 20]%nat /\
  float_value (0x1p51 - 1 / 10) == round64 (pow2 51 - shake_fps_min64) /\
  float_value (0x1p51 - 1 / 10) == pow2 51.
Proof.
  split; [vm_compute; reflexivity|].
  split; [repeat (apply Forall_cons; [vm_compute; reflexivity|]);
          apply Forall_nil|].
  split; [repeat (apply Forall_cons; [vm_compute; reflexivity|]);
          apply Forall_nil|].
  split; [repeat (apply Forall_cons; [vm_compute; reflexivity|]);
          apply Forall_nil|].
  split; vm_compute; reflexivity.
Qed.

End HardwareCheck.

(** ** Absolute values *)

Lemma Qabs_bound (x : Q) : Qabs x <= 1 -> -1 <= x /\ x <= 1.
Proof.
  intro H. apply Qabs_Qle_condition in H. exact H.
Qed.

Lemma Qabs_scaled (x k : Q) : 0 <= k -> Qabs x <= 1 -> Qabs (x * k) <= k.
Proof.
  intros Hk Hx. apply Qabs_Qle_condition.
  apply Qabs_bound in Hx. destruct Hx as [H1 H2]. split; nra.
Qed.


(** ** The state at the start of the control loop *)

Lemma begin_enter_shake real_dt (w : world) :
  shake_off (begin_enter real_dt w) = shake_off w /\
  shake_pos (begin_enter real_dt w) = shake_pos w /\
  shake_vel (begin_enter real_dt w) = shake_vel w /\
  shake_force_mod (begin_enter real_dt w) = shake_force_mod w /\
  shake_force_ang (begin_enter real_dt w) = shake_force_ang w.
Proof.
  unfold begin_enter. cbn [haptic_lastUpdate set_shake].
  destruct (Qgtb (haptic_lastUpdate w) 0); repeat split.
Qed.


(** ** The shake *)

Section Shake.

Variable E : externs.

(** A tick that switches the shake off leaves the spring where it was:
    the position and the velocity are not reset. *)
Lemma spfx_updateShake_settles rng dt (w : world) :
  shake_off w = false ->
  shake_off (spfx_updateShake E rng dt w) = true ->
  shake_pos (spfx_updateShake E rng dt w) = shake_pos w /\
  shake_vel (spfx_updateShake E rng dt w) = shake_vel w /\
  VMOD E (shake_pos w) < 1 # 100 /\ VMOD E (shake_vel w) < 1 # 100 /\
  (0 <= shake_force_mod w ->
   shake_force_mod (spfx_updateShake E rng dt w) == 0).
Proof.
  intros Hon. unfold spfx_updateShake. rewrite Hon.
  destruct (Qgtb (shake_force_mod w) 0) eqn:Hf;
    [destruct (Qltb (shake_force_mod w - SHAKE_DECAY E * dt) 0) eqn:Hd|];
    cbv iota beta zeta;
    destruct (Qltb (VMOD E (shake_pos w)) (1 # 100)) eqn:Hp;
    destruct (Qltb (VMOD E (shake_vel w)) (1 # 100)) eqn:Hv;
    cbn; try discriminate; intros _;
    apply Qltb_true in Hp; apply Qltb_true in Hv;
    repeat split; auto; intro H0; try reflexivity.
  apply Qgtb_false in Hf. lra.
Qed.

(** A tick keeps the invariant of the shake. *)
Lemma spfx_updateShake_inv rng dt (w : world) :
  shake_inv E w -> shake_inv E (spfx_updateShake E rng dt w).
Proof.
  intros [H0 Hoff]. destruct (shake_off w) eqn:Hon.
  - unfold spfx_updateShake. rewrite Hon.
    split; [exact H0|]. intros _. apply Hoff. reflexivity.
  - split.
    + unfold spfx_updateShake. rewrite Hon.
      destruct (Qgtb (shake_force_mod w) 0) eqn:Hf;
        [destruct (Qltb (shake_force_mod w - SHAKE_DECAY E * dt) 0) eqn:Hd|];
        cbv iota beta zeta;
        destruct (Qltb (VMOD E (shake_pos w)) (1 # 100));
        destruct (Qltb (VMOD E (shake_vel w)) (1 # 100));
        cbn; try lra; apply Qltb_false in Hd; exact Hd.
    + intro Hs.
      destruct (spfx_updateShake_settles rng dt w Hon Hs)
        as (_ & _ & Hp & Hv & Hf).
      destruct (spfx_updateShake_settles rng dt w Hon Hs)
        as (-> & -> & _). auto.
Qed.

Lemma fold_updateShake_inv rng (steps : list Q) : forall w,
  shake_inv E w ->
  shake_inv E (fold_left (fun s h => spfx_updateShake E rng h s) steps w).
Proof.
  induction steps as [|h steps IH]; intros w Hw; [exact Hw|].
  simpl. apply IH, spfx_updateShake_inv, Hw.
Qed.

Lemma spfx_begin_inv rng dt real_dt (w : world) :
  shake_inv E w -> shake_inv E (spfx_begin E rng dt real_dt w).
Proof.
  intro Hw. unfold spfx_begin. cbn [shake_off set_shake].
  destruct (shake_off w) eqn:Hon.
  - destruct Hw as [H0 H1]. split; [exact H0|]. intros _.
    apply H1. exact Hon.
  - destruct (shake_control_loop_run dt) as (k & Hrun & _).
    rewrite Hrun.
    set (w0 := if Qgtb _ 0 then _ else _).
    assert (Hw0 : shake_inv E w0).
    { unfold w0. destruct Hw as [H0 H1].
      destruct (Qgtb _ 0); split; cbn; auto; discriminate. }
    apply (fold_updateShake_inv rng
             (repeat shake_fps_min k ++ [leftover k dt]) w0) in Hw0.
    destruct Hw0 as [G0 G1]. split; cbn; auto.
Qed.

Lemma spfx_shake_inv sdl_ok modifier (w : world) :
  0 <= SHAKE_MAX E -> 0 <= modifier ->
  shake_inv E w -> shake_inv E (spfx_shake E sdl_ok modifier w).
Proof.
  intros HM Hm [H0 _]. unfold spfx_shake. split; [|cbn; discriminate].
  cbn [shake_force_mod set_shake].
  assert (Hfm : 0 <= (if Qgtb (shake_force_mod w + modifier) (SHAKE_MAX E)
                      then SHAKE_MAX E else shake_force_mod w + modifier)).
  { destruct (Qgtb _ _); lra. }
  unfold spfx_hapticRumble. cbn [haptic_rumble set_shake haptic_lastUpdate
                                 shake_off].
  destruct (haptic_rumble w >=? 0)%Z; [|exact Hfm].
  destruct (Qgtb (haptic_lastUpdate w) 0 || shake_off w
            || Qgtb modifier (SHAKE_MAX E / 3)); [exact Hfm|].
  destruct sdl_ok; exact Hfm.
Qed.

Section Reachable.

Hypothesis externs_are_sane : externs_sane E.

Lemma shake_reachable_inv (w : world) :
  shake_reachable E w -> shake_inv E w.
Proof.
  destruct externs_are_sane as [HM H0]. intro Hr.
  induction Hr as [c r | w Hr IH | w ok m Hr IH Hm | w rng dt rdt Hr IH
                  | w junk f0 rng e px py qx qy layer Hr IH | w dt Hr IH
                  | w paused junk layer Hr IH].
  - split; cbn; [lra|]. intros _. split; [reflexivity|split; exact H0].
  - split; cbn; [lra|]. intros _. split; [reflexivity|split; exact H0].
  - apply spfx_shake_inv; assumption.
  - apply spfx_begin_inv; assumption.
  - unfold spfx_add.
    destruct ((e <? 0) || (e >? array_size (spfx_effects w)))%Z;
      [exact IH|]. destruct layer; exact IH.
  - exact IH.
  - unfold spfx_render. destruct layer; [| |exact IH].
    + destruct (render_from paused (spfx_effects w) junk
                  (length (spfx_stack_front w)) (spfx_stack_front w)).
      exact IH.
    + destruct (render_from paused (spfx_effects w) junk
                  (length (spfx_stack_back w)) (spfx_stack_back w)).
      exact IH.
Qed.

(** C3 as the code has it: in every state reached with shake modifiers
    that are not negative, a shake that is off has a force of exactly
    zero, reports the offset (0,0) through [spfx_getShake], and holds a
    position and a velocity of modulus below 0.01; [spfx_clear] leaves
    position, velocity and force at exactly zero; a tick that switches
    the shake off through the settlement check leaves the force at zero
    and the position and velocity as they were. *)
Theorem shake_inactive_state (w : world) :
  shake_reachable E w ->
  (shake_off w = true ->
   shake_force_mod w == 0 /\ spfx_getShake w = (0, 0) /\
   VMOD E (shake_pos w) < 1 # 100 /\ VMOD E (shake_vel w) < 1 # 100) /\
  (shake_off (spfx_clear w) = true /\
   shake_pos (spfx_clear w) = vectnull /\
   shake_vel (spfx_clear w) = vectnull /\
   shake_force_mod (spfx_clear w) = 0) /\
  (forall rng dt,
     shake_off w = false ->
     shake_off (spfx_updateShake E rng dt w) = true ->
     shake_force_mod (spfx_updateShake E rng dt w) == 0 /\
     shake_pos (spfx_updateShake E rng dt w) = shake_pos w /\
     shake_vel (spfx_updateShake E rng dt w) = shake_vel w).
Proof.
  intro Hr. destruct (shake_reachable_inv w Hr) as [H0 Hoff].
  split; [|split].
  - intro Hs. destruct (Hoff Hs) as (Hf & Hp & Hv).
    unfold spfx_getShake. rewrite Hs. auto.
  - repeat split.
  - intros rng dt Hon Hs.
    destruct (spfx_updateShake_settles rng dt w Hon Hs)
      as (Hp & Hv & _ & _ & Hf). auto.
Qed.

End Reachable.

(** *** The stray offset, whatever the externals *)

(** A frame of exactly one step is one tick. *)
Lemma spfx_begin_one_step rng real_dt (w : world) :
  shake_off w = false ->
  spfx_begin E rng (1 # 10) real_dt w
  = begin_leave (spfx_updateShake E rng (1 # 10) (begin_enter real_dt w)).
Proof.
  intro Hon. unfold spfx_begin, begin_leave, begin_enter.
  cbn [shake_off set_shake]. rewrite Hon. reflexivity.
Qed.

(** A tick under a force that lasts through it. *)
Lemma spfx_updateShake_forced rng dt (w : world) :
  shake_off w = false ->
  0 < shake_force_mod w -> 0 <= shake_force_mod w - SHAKE_DECAY E * dt ->
  let w' := spfx_updateShake E rng dt w in
  let fm := shake_force_mod w - SHAKE_DECAY E * dt in
  let angle := noise_simplex1 E (shake_force_ang w + dt) * 5 * M_PI E in
  let fx := - SHAKE_K * vx (shake_pos w) + - SHAKE_B E * vx (shake_vel w)
            + fm * cos E angle in
  let fy := - SHAKE_K * vy (shake_pos w) + - SHAKE_B E * vy (shake_vel w)
            + fm * sin E angle in
  shake_off w' = false /\ shake_force_mod w' = fm /\
  shake_vel w' = vect_cadd (shake_vel w) (1 / SHAKE_MASS * fx * dt)
                                         (1 / SHAKE_MASS * fy * dt) /\
  shake_pos w' = vect_cadd (shake_pos w) (vx (shake_vel w') * dt)
                                         (vy (shake_vel w') * dt).
Proof.
  intros Hon Hf Hd. unfold spfx_updateShake. rewrite Hon.
  cmp_true (Qgtb (shake_force_mod w) 0).
  cmp_false (Qltb (shake_force_mod w - SHAKE_DECAY E * dt) 0).
  cbn. repeat split.
Qed.

(** A tick in which the force runs out, the spring being within the
    thresholds: the shake goes off. *)
Lemma spfx_updateShake_runs_out rng dt (w : world) :
  shake_off w = false ->
  0 < shake_force_mod w -> shake_force_mod w - SHAKE_DECAY E * dt < 0 ->
  VMOD E (shake_pos w) < 1 # 100 -> VMOD E (shake_vel w) < 1 # 100 ->
  shake_off (spfx_updateShake E rng dt w) = true.
Proof.
  intros Hon Hf Hd Hp Hv. unfold spfx_updateShake. rewrite Hon.
  cmp_true (Qgtb (shake_force_mod w) 0).
  cmp_true (Qltb (shake_force_mod w - SHAKE_DECAY E * dt) 0).
  cbv iota beta zeta.
  replace (Qltb (VMOD E (shake_pos w)) (1 # 100)) with true
    by (symmetry; apply Qltb_true; exact Hp).
  replace (Qltb (VMOD E (shake_vel w)) (1 # 100)) with true
    by (symmetry; apply Qltb_true; exact Hv).
  reflexivity.
Qed.

Section Geometric.

Hypothesis externs_are_geometric : externs_geometric E.

(** Whatever externals with a direction that is never null and a modulus
    below the sum of the components: a small shake from rest, a frame of
    one step under the force, a frame of one step in which the force runs
    out, and the shake is off away from the origin. *)
Lemma settlement_keeps_offset catalog rumble sdl_ok rng1 rng2 rdt1 rdt2 :
  1 # 1000 < SHAKE_DECAY E ->
  SHAKE_DECAY E * (1 # 10) + (1 # 10000) <= SHAKE_MAX E ->
  let w :=
    spfx_begin E rng2 (1 # 10) rdt2
      (spfx_begin E rng1 (1 # 10) rdt1
         (spfx_shake E sdl_ok (SHAKE_DECAY E * (1 # 10) + (1 # 10000))
            (spfx_load catalog rumble))) in
  shake_off w = true /\
  ~ (vx (shake_pos w) == 0 /\ vy (shake_pos w) == 0).
Proof.
  destruct externs_are_geometric as [Hdir Hmod]. intros HD HM.
  set (m := SHAKE_DECAY E * (1 # 10) + (1 # 10000)).
  set (w1 := spfx_shake E sdl_ok m (spfx_load catalog rumble)).
  assert (H1 : shake_off w1 = false /\ shake_pos w1 = vectnull /\
               shake_vel w1 = vectnull /\ shake_force_mod w1 == m /\
               shake_force_ang w1 = 0).
  { unfold w1, spfx_shake, spfx_hapticRumble, spfx_load.
    cbn [shake_force_mod shake_off shake_pos shake_vel shake_force_ang
         haptic_rumble haptic_lastUpdate set_shake].
    replace (Qgtb (0 + m) (SHAKE_MAX E)) with false
      by (symmetry; apply Qgtb_false; unfold m; lra).
    destruct (rumble >=? 0)%Z; [|cbn; repeat split; ring].
    change (Qgtb 0 0) with false. cbn [orb].
    destruct (Qgtb m (SHAKE_MAX E / 3)); [cbn; repeat split; ring|].
    destruct sdl_ok; cbn; repeat split; ring. }
  destruct H1 as (Hoff1 & Hp1 & Hv1 & Hf1 & Ha1).
  intro w. unfold w. fold w1.
  (* first frame: one tick under the force *)
  rewrite (spfx_begin_one_step rng1 rdt1 w1 Hoff1).
  set (e1 := begin_enter rdt1 w1).
  destruct (begin_enter_shake rdt1 w1) as (Eo & Ep & Ev & Ef & Ea).
  fold e1 in Eo, Ep, Ev, Ef, Ea.
  assert (Hforced := spfx_updateShake_forced rng1 (1 # 10) e1).
  rewrite Eo, Ep, Ev, Ef, Ea, Hp1, Hv1, Ha1 in Hforced.
  specialize (Hforced Hoff1 ltac:(rewrite Hf1; unfold m; lra)
                ltac:(rewrite Hf1; unfold m; lra)).
  cbv zeta in Hforced.
  set (t1 := spfx_updateShake E rng1 (1 # 10) e1) in *.
  set (angle := noise_simplex1 E (0 + (1 # 10)) * 5 * M_PI E) in *.
  destruct Hforced as (Hoff2 & Hf2 & Hv2 & Hp2).
  destruct (Hdir angle) as (Hc & Hs & Hnz).
  set (w2 := begin_leave t1).
  assert (Hw2 : shake_off w2 = false /\ shake_force_mod w2 == 1 # 10000 /\
                vx (shake_vel w2) == cos E angle * (1 # 250) /\
                vy (shake_vel w2) == sin E angle * (1 # 250) /\
                vx (shake_pos w2) == cos E angle * (1 # 2500) /\
                vy (shake_pos w2) == sin E angle * (1 # 2500)).
  { unfold w2, begin_leave. cbn [shake_off shake_force_mod shake_vel
                                 shake_pos set_shake].
    rewrite Hp2, Hv2, Hf2. unfold vect_cadd, vectnull, SHAKE_MASS, SHAKE_K.
    cbn [vx vy]. rewrite Hf1. unfold m.
    repeat split; try exact Hoff2; field. }
  destruct Hw2 as (Ho & Hf & Hvx & Hvy & Hpx & Hpy).
  (* second frame: the force runs out *)
  rewrite (spfx_begin_one_step rng2 rdt2 w2 Ho).
  set (e2 := begin_enter rdt2 w2).
  destruct (begin_enter_shake rdt2 w2) as (Fo & Fp & Fv & Ff & _).
  fold e2 in Fo, Fp, Fv, Ff.
  assert (Hsmall_p : VMOD E (shake_pos e2) < 1 # 100).
  { eapply Qle_lt_trans; [apply Hmod|]. rewrite Fp, Hpx, Hpy.
    pose proof (Qabs_scaled (cos E angle) (1 # 2500) ltac:(lra) Hc).
    pose proof (Qabs_scaled (sin E angle) (1 # 2500) ltac:(lra) Hs). lra. }
  assert (Hsmall_v : VMOD E (shake_vel e2) < 1 # 100).
  { eapply Qle_lt_trans; [apply Hmod|]. rewrite Fv, Hvx, Hvy.
    pose proof (Qabs_scaled (cos E angle) (1 # 250) ltac:(lra) Hc).
    pose proof (Qabs_scaled (sin E angle) (1 # 250) ltac:(lra) Hs). lra. }
  assert (Hout : shake_off (spfx_updateShake E rng2 (1 # 10) e2) = true).
  { apply spfx_updateShake_runs_out.
    - rewrite Fo. exact Ho.
    - rewrite Ff, Hf. lra.
    - rewrite Ff, Hf. lra.
    - exact Hsmall_p.
    - exact Hsmall_v. }
  assert (Fo' : shake_off e2 = false) by (rewrite Fo; exact Ho).
  destruct (spfx_updateShake_settles rng2 (1 # 10) e2 Fo' Hout)
    as (Hkeep & _).
  unfold begin_leave. cbn [shake_off shake_pos set_shake].
  split; [exact Hout|]. rewrite Hkeep, Fp, Hpx, Hpy.
  intros [Z1 Z2]. apply Hnz. split; lra.
Qed.

End Geometric.

End Shake.

(** ** The shake on the example externals *)

Lemma example_externs_sane : externs_sane example_externs.
Proof. split; vm_compute; congruence. Qed.

Lemma settled_example_reachable :
  shake_reachable example_externs settled_example.
Proof.
  unfold settled_example, shaken_example.
  do 2 apply reach_begin. apply reach_shake; [apply reach_load|discriminate].
Qed.

Lemma shake_inactive_state_witness :
  (shake_off settled_example = true ->
   shake_force_mod settled_example == 0 /\
   spfx_getShake settled_example = (0, 0) /\
   VMOD example_externs (shake_pos settled_example) < 1 # 100 /\
   VMOD example_externs (shake_vel settled_example) < 1 # 100) /\
  (shake_off (spfx_clear settled_example) = true /\
   shake_pos (spfx_clear settled_example) = vectnull /\
   shake_vel (spfx_clear settled_example) = vectnull /\
   shake_force_mod (spfx_clear settled_example) = 0) /\
  (forall rng dt,
     shake_off settled_example = false ->
     shake_off (spfx_updateShake example_externs rng dt settled_example)
       = true ->
     shake_force_mod (spfx_updateShake example_externs rng dt settled_example)
       == 0 /\
     shake_pos (spfx_updateShake example_externs rng dt settled_example)
       = shake_pos settled_example /\
     shake_vel (spfx_updateShake example_externs rng dt settled_example)
       = shake_vel settled_example).
Proof.
  apply (shake_inactive_state example_externs example_externs_sane
           settled_example settled_example_reachable).
Defined.

(** C3 as the claim has it fails: a shake of 0.0301 from rest, one frame
    of 0.1 s and then another in which the force runs out, and the shake
    is off with a position and a velocity that are not zero. *)
Lemma shake_inactive_counterexample :
  shake_reachable example_externs settled_example /\
  shake_off settled_example = true /\
  ~ vx (shake_pos settled_example) == 0 /\
  ~ vy (shake_pos settled_example) == 0 /\
  ~ vx (shake_vel settled_example) == 0 /\
  shake_pos settled_example <> vectnull /\
  shake_vel settled_example <> vectnull.
Proof.
  split; [exact settled_example_reachable|].
  repeat split; vm_compute; discriminate.
Qed.


Lemma example_sqrt_le (s t : Q) : 0 <= s -> 0 <= t -> s <= t * t ->
  example_sqrt s <= t.
Proof.
  intros Hs Ht Hst. unfold example_sqrt.
  set (N := Qfloor (s * 1000000000000)).
  assert (HN : (0 <= N)%Z) by (apply Qfloor_nonneg; nra).
  pose proof (Z.sqrt_spec N HN) as [Hz _].
  pose proof (Z.sqrt_nonneg N) as Hz0.
  set (z := Z.sqrt N) in *.
  assert (HNs : inject_Z N <= s * 1000000000000) by apply Qfloor_le.
  rewrite Zle_Qle, inject_Z_mult in Hz. rewrite Zle_Qle in Hz0.
  change (inject_Z 0) with 0 in Hz0.
  apply Qle_shift_div_r; [reflexivity|].
  destruct (Qlt_le_dec (t * 1000000) (inject_Z z)) as [Hgt|Hle];
    [|exact Hle].
  exfalso.
  assert (H1 : (t * 1000000) * (t * 1000000) < inject_Z z * inject_Z z)
    by nra.
  nra.
Qed.

Lemma Qabs_square (x : Q) : Qabs x * Qabs x == x * x.
Proof.
  apply Qabs_case; intros _; ring.
Qed.

(** The example externals are geometric. *)
Lemma example_externs_geometric : externs_geometric example_externs.
Proof.
  split.
  - intro a. cbn [cos sin example_externs].
    set (t := a / 2).
    assert (Hd : 0 < 1 + t * t) by nra.
    assert (Hc : (1 - t * t) / (1 + t * t) * (1 + t * t) == 1 - t * t)
      by (field; lra).
    assert (Hs : 2 * t / (1 + t * t) * (1 + t * t) == 2 * t)
      by (field; lra).
    set (c := (1 - t * t) / (1 + t * t)) in *.
    set (s := 2 * t / (1 + t * t)) in *.
    set (d := 1 + t * t) in *.
    assert (Ed : d == 1 + t * t) by reflexivity.
    assert (Ht2 : 0 <= t * t) by nra.
    clearbody c s d.
    repeat split.
    + apply Qabs_Qle_condition. split; nra.
    + apply Qabs_Qle_condition.
      assert (0 <= (1 - t) * (1 - t)) by nra.
      assert (0 <= (1 + t) * (1 + t)) by nra.
      split; nra.
    + intros [Zc Zs]. rewrite Zc in Hc. rewrite Zs in Hs. nra.
  - intro v. cbn [VMOD example_externs].
    pose proof (Qabs_nonneg (vx v)). pose proof (Qabs_nonneg (vy v)).
    pose proof (Qabs_square (vx v)). pose proof (Qabs_square (vy v)).
    apply example_sqrt_le; nra.
Qed.

(** The lemma above on the example externals gives the settled state of
    the examples. *)
Lemma settlement_keeps_offset_example :
  shake_off settled_example = true /\
  ~ (vx (shake_pos settled_example) == 0 /\
     vy (shake_pos settled_example) == 0).
Proof.
  apply (settlement_keeps_offset example_externs example_externs_geometric
           [] (-1) true 0 0 (1 # 10) (1 # 10)).
  - reflexivity.
  - vm_compute. discriminate.
Qed.

(** * Further properties *)

(** ** Looking a template up by name *)

(** The scan of [spfx_get] from index [i]: either no template has the
    name and the result is -1, or the result is the index of the first one
    that has it. *)
Lemma spfx_get_from_spec (catalog : list SPFX_Base) (n : string) : forall i,
  (0 <= i)%Z ->
  (spfx_get_from i catalog n = (-1)%Z /\
   forall b, In b catalog -> name b <> n) \/
  (exists k b,
     spfx_get_from i catalog n = (i + Z.of_nat k)%Z /\
     nth_error catalog k = Some b /\ name b = n /\
     forall j b', (j < k)%nat -> nth_error catalog j = Some b' ->
                  name b' <> n).
Proof.
  induction catalog as [|b r IH]; intros i Hi; simpl.
  - left. split; [reflexivity|]. intros b [].
  - destruct (String.eqb (name b) n) eqn:E.
    + apply String.eqb_eq in E. right. exists O, b.
      repeat split; auto; [f_equal; lia|]. intros j b' Hj. lia.
    + apply String.eqb_neq in E.
      destruct (IH (i + 1)%Z ltac:(lia)) as [[H1 H2]|(k & b0 & H1 & H2 & H3 & H4)].
      * left. split; [exact H1|]. intros b' [<-|Hin]; auto.
      * right. exists (S k), b0. repeat split; auto; [rewrite H1; lia|].
        intros [|j] b' Hj Hb'; simpl in Hb'.
        -- injection Hb' as <-. exact E.
        -- apply (H4 j b'); [lia|exact Hb'].
Qed.

(** X1: [spfx_get] returns -1 exactly when no template of the catalog has
    the name; otherwise it returns an index of the catalog, that of the
    first template with the name. *)
Theorem spfx_get_first_match (w : world) (n : string) :
  (spfx_get w n = (-1)%Z <->
   forall b, In b (spfx_effects w) -> name b <> n) /\
  (spfx_get w n <> (-1)%Z ->
   (0 <= spfx_get w n < array_size (spfx_effects w))%Z /\
   exists b,
     nth_error (spfx_effects w) (Z.to_nat (spfx_get w n)) = Some b /\
     name b = n /\
     forall j b', (j < Z.to_nat (spfx_get w n))%nat ->
                  nth_error (spfx_effects w) j = Some b' -> name b' <> n).
Proof.
  unfold spfx_get.
  destruct (spfx_get_from_spec (spfx_effects w) n 0%Z ltac:(lia))
    as [[H1 H2]|(k & b & H1 & H2 & H3 & H4)].
  - split; [split; auto|]. intro H. contradiction.
  - rewrite H1. simpl Z.add. split.
    + split; [lia|]. intro H. exfalso.
      apply (H b); [eapply nth_error_In; exact H2|exact H3].
    + intros _. rewrite Nat2Z.id. split.
      * unfold array_size.
        assert (k < length (spfx_effects w))%nat
          by (apply nth_error_Some; congruence). lia.
      * exists b. auto.
Qed.

(** X2: spawning what [spfx_get] returns.  For a name that no template
    has, [spfx_add] writes its warning and changes nothing else; for a
    name that a template has, on one of the two layers, it appends one
    instance whose effect index is the one [spfx_get] returned, the index
    of the first template of that name (no template before it has the
    name), with the timer of that template, and writes no warning. *)
Theorem spfx_add_of_spfx_get junk frame0 rng px py vx vy layer (w : world)
    (n : string) :
  ((forall b, In b (spfx_effects w) -> name b <> n) ->
   spfx_add junk frame0 rng (spfx_get w n) px py vx vy layer w
   = WARN "Trying to add spfx with invalid effect!" w) /\
  ((exists b, In b (spfx_effects w) /\ name b = n) ->
   layer = SPFX_LAYER_FRONT \/ layer = SPFX_LAYER_BACK ->
   exists s b,
     layer_stack layer
       (spfx_add junk frame0 rng (spfx_get w n) px py vx vy layer w)
       = layer_stack layer w ++ [s] /\
     effect s = spfx_get w n /\
     nth_error (spfx_effects w) (Z.to_nat (effect s)) = Some b /\
     name b = n /\
     (forall j b', (j < Z.to_nat (effect s))%nat ->
                   nth_error (spfx_effects w) j = Some b' -> name b' <> n) /\
     timer s = spawn_timer b rng /\
     pos s = mkVector2d px py /\ vel s = mkVector2d vx vy /\
     warnings (spfx_add junk frame0 rng (spfx_get w n) px py vx vy layer w)
       = warnings w).
Proof.
  unfold spfx_get.
  destruct (spfx_get_from_spec (spfx_effects w) n 0%Z ltac:(lia))
    as [[H1 H2]|(k & b & H1 & H2 & H3 & H4)]; rewrite H1.
  - split; [reflexivity|]. intros (b0 & Hin & Hn). exfalso.
    apply (H2 b0 Hin Hn).
  - simpl Z.add. split.
    + intro Hno. exfalso.
      apply (Hno b); [eapply nth_error_In; exact H2|exact H3].
    + intros _ Hl.
      assert (Hk : (k < length (spfx_effects w))%nat)
        by (apply nth_error_Some; congruence).
      assert (Hr : (0 <= Z.of_nat k < array_size (spfx_effects w))%Z)
        by (unfold array_size; lia).
      pose proof (effect_at_valid (spfx_effects w) junk (Z.of_nat k) Hr)
        as Hat.
      rewrite Nat2Z.id, H2 in Hat. injection Hat as Hat.
      unfold spfx_add.
      replace ((Z.of_nat k <? 0)
               || (Z.of_nat k >? array_size (spfx_effects w)))%Z
        with false
        by (symmetry; apply orb_false_iff; rewrite Z.gtb_ltb, !Z.ltb_ge; lia).
      rewrite <- Hat.
      exists (mkSPFX (vect_csetmin px py) (vect_csetmin vx vy) frame0
                (Z.of_nat k) (spawn_timer b rng)), b.
      cbn [effect timer pos vel]. rewrite Nat2Z.id.
      destruct Hl as [-> | ->];
        (split; [reflexivity|]); (split; [reflexivity|]);
        (split; [exact H2|]); (split; [exact H3|]);
        (split; [exact H4|]); repeat split; auto.
Qed.

(** On the catalog of the examples: "explosion" is template 0 and spawns;
    no template is called "nonexistent", and spawning it only warns. *)
Example spfx_add_of_spfx_get_example :
  spfx_get pool_example "explosion" = 0%Z /\
  spfx_get pool_example "nonexistent" = (-1)%Z /\
  length (spfx_stack_front
            (spfx_add junk_base 0 0 (spfx_get pool_example "explosion")
               0 0 0 0 SPFX_LAYER_FRONT pool_example)) = 3%nat /\
  spfx_add junk_base 0 0 (spfx_get pool_example "nonexistent")
    0 0 0 0 SPFX_LAYER_FRONT pool_example
  = WARN "Trying to add spfx with invalid effect!" pool_example.
Proof. repeat split. Qed.

(** ** Looking a trail colour set up by name *)

Lemma trailType_get_from_spec (stack : list trailColour) (n : string) :
  forall i,
  (trailType_get_from i stack n = None /\
   forall tc, In tc stack -> tc_name tc <> n) \/
  (exists k tc,
     trailType_get_from i stack n = Some (i + Z.of_nat k)%Z /\
     nth_error stack k = Some tc /\ tc_name tc = n /\
     forall j tc', (j < k)%nat -> nth_error stack j = Some tc' ->
                   tc_name tc' <> n).
Proof.
  induction stack as [|tc r IH]; intro i; simpl.
  - left. split; [reflexivity|]. intros tc [].
  - destruct (String.eqb (tc_name tc) n) eqn:E.
    + apply String.eqb_eq in E. right. exists O, tc.
      repeat split; auto; [do 2 f_equal; lia|]. intros j tc' Hj. lia.
    + apply String.eqb_neq in E.
      destruct (IH (i + 1)%Z) as [[H1 H2]|(k & tc0 & H1 & H2 & H3 & H4)].
      * left. split; [exact H1|]. intros tc' [<-|Hin]; auto.
      * right. exists (S k), tc0. repeat split; auto.
        -- rewrite H1. f_equal. lia.
        -- intros [|j] tc' Hj Htc'; simpl in Htc'.
           ++ injection Htc' as <-. exact E.
           ++ apply (H4 j tc'); [lia|exact Htc'].
Qed.

(** X3: [trailType_get] returns -1 and writes one warning exactly when no
    colour set of the stack has the name; otherwise it returns the index
    of the first colour set with the name and leaves the state as it
    is. *)
Theorem trailType_get_first_match (stack : list trailColour) (n : string)
    (w : world) :
  ((forall tc, In tc stack -> tc_name tc <> n) ->
   trailType_get stack n w
   = ((-1)%Z, WARN "Trail type not found in stack" w)) /\
  ((exists tc, In tc stack /\ tc_name tc = n) ->
   snd (trailType_get stack n w) = w /\
   (0 <= fst (trailType_get stack n w) < array_size stack)%Z /\
   exists tc,
     nth_error stack (Z.to_nat (fst (trailType_get stack n w))) = Some tc /\
     tc_name tc = n /\
     forall j tc', (j < Z.to_nat (fst (trailType_get stack n w)))%nat ->
                   nth_error stack j = Some tc' -> tc_name tc' <> n).
Proof.
  unfold trailType_get.
  destruct (trailType_get_from_spec stack n 0%Z)
    as [[H1 H2]|(k & tc & H1 & H2 & H3 & H4)]; rewrite H1.
  - split; [reflexivity|]. intros (tc & Hin & Hn). exfalso.
    apply (H2 tc Hin Hn).
  - split.
    + intro Hno. exfalso. apply (Hno tc); [eapply nth_error_In; exact H2|exact H3].
    + intros _. cbn [fst snd]. simpl Z.add. rewrite Nat2Z.id.
      split; [reflexivity|]. split.
      * unfold array_size.
        assert (k < length stack)%nat by (apply nth_error_Some; congruence).
        lia.
      * exists tc. auto.
Qed.

(** ** The pools over several updates *)

Lemma spfx_update_layer_alive layer dt :
  Forall (fun s => 0 <= timer s) (spfx_update_layer layer dt) /\
  (length (spfx_update_layer layer dt) <= length layer)%nat.
Proof.
  rewrite spfx_update_layer_filter. split.
  - apply Forall_forall. intros s' Hin. apply in_map_iff in Hin.
    destruct Hin as (s & <- & Hs). apply filter_In in Hs.
    destruct Hs as [_ Ha]. unfold alive in Ha.
    apply negb_true_iff, Qltb_false in Ha. exact Ha.
  - rewrite length_map. apply filter_length_le.
Qed.

(** X4: after [spfx_update], whatever [dt], no instance of either pool has
    a negative timer, no pool has grown, and the catalog is what it
    was. *)
Theorem spfx_update_timers_nonneg (dt : Q) (w : world) :
  Forall (fun s => 0 <= timer s) (spfx_stack_front (spfx_update dt w)) /\
  Forall (fun s => 0 <= timer s) (spfx_stack_back (spfx_update dt w)) /\
  (length (spfx_stack_front (spfx_update dt w))
   <= length (spfx_stack_front w))%nat /\
  (length (spfx_stack_back (spfx_update dt w))
   <= length (spfx_stack_back w))%nat /\
  spfx_effects (spfx_update dt w) = spfx_effects w.
Proof.
  unfold spfx_update. cbn [spfx_stack_front spfx_stack_back spfx_effects
                           set_front set_back].
  destruct (spfx_update_layer_alive (spfx_stack_front w) dt) as [F1 F2].
  destruct (spfx_update_layer_alive (spfx_stack_back w) dt) as [B1 B2].
  repeat split; assumption.
Qed.

(** ** Rendering twice *)

Lemma render_frame_again paused b s :
  render_frame paused b (fst (render_one paused b s))
  = render_frame paused b s.
Proof. destruct paused; reflexivity. Qed.

Lemma render_one_again paused b s :
  render_one paused b (fst (render_one paused b s)) = render_one paused b s.
Proof.
  unfold render_one at 1 3. rewrite render_frame_again. reflexivity.
Qed.

Lemma render_from_all paused catalog junk stack :
  render_from paused catalog junk (length stack) stack
  = (map (fun s => fst (render_one paused
                          (effect_at catalog junk (effect s)) s)) stack,
     map (fun s => snd (render_one paused
                          (effect_at catalog junk (effect s)) s))
         (rev stack)).
Proof.
  rewrite render_from_map by lia.
  rewrite firstn_all, skipn_all, app_nil_r, map_rev. reflexivity.
Qed.

Lemma render_from_again paused catalog junk stack :
  let st := fst (render_from paused catalog junk (length stack) stack) in
  render_from paused catalog junk (length st) st
  = render_from paused catalog junk (length stack) stack.
Proof.
  intro st. unfold st. rewrite !render_from_all. cbn [fst]. f_equal.
  - rewrite map_map. apply map_ext. intro s.
    change (effect (fst (render_one paused
                           (effect_at catalog junk (effect s)) s)))
      with (effect s).
    rewrite render_one_again. reflexivity.
  - rewrite <- map_rev, map_map. apply map_ext. intro s.
    change (effect (fst (render_one paused
                           (effect_at catalog junk (effect s)) s)))
      with (effect s).
    rewrite render_one_again. reflexivity.
Qed.

(** X7: on one of the two layers, rendering again right after a rendering
    gives the same state and draws the same sprites as the first one; a
    rendering draws one sprite for each instance of the layer, leaves the
    position, velocity, template and timer of every instance as they are,
    and does not touch the other layer, the catalog or the log. *)
Theorem spfx_render_again paused junk layer (w : world) :
  layer = SPFX_LAYER_FRONT \/ layer = SPFX_LAYER_BACK ->
  let w' := fst (spfx_render paused junk layer w) in
  spfx_render paused junk layer w' = spfx_render paused junk layer w /\
  length (snd (spfx_render paused junk layer w))
    = length (layer_stack layer w) /\
  map (fun s => (pos s, vel s, effect s, timer s)) (layer_stack layer w')
    = map (fun s => (pos s, vel s, effect s, timer s)) (layer_stack layer w) /\
  (layer = SPFX_LAYER_FRONT -> spfx_stack_back w' = spfx_stack_back w) /\
  (layer = SPFX_LAYER_BACK -> spfx_stack_front w' = spfx_stack_front w) /\
  spfx_effects w' = spfx_effects w /\ warnings w' = warnings w.
Proof.
  intros [-> | ->]; cbv zeta; unfold spfx_render; cbn [layer_stack].
  - pose proof (render_from_again paused (spfx_effects w) junk
                  (spfx_stack_front w)) as Hagain.
    pose proof (render_from_all paused (spfx_effects w) junk
                  (spfx_stack_front w)) as Hall.
    destruct (render_from paused (spfx_effects w) junk
                (length (spfx_stack_front w)) (spfx_stack_front w))
      as [st bs] eqn:R.
    cbv zeta in Hagain. cbn [fst snd] in *.
    cbn [spfx_effects spfx_stack_front spfx_stack_back warnings set_front].
    rewrite Hagain. injection Hall as -> ->. repeat split.
    + rewrite length_map, length_rev. reflexivity.
    + rewrite map_map. reflexivity.
    + intro H. discriminate.
  - pose proof (render_from_again paused (spfx_effects w) junk
                  (spfx_stack_back w)) as Hagain.
    pose proof (render_from_all paused (spfx_effects w) junk
                  (spfx_stack_back w)) as Hall.
    destruct (render_from paused (spfx_effects w) junk
                (length (spfx_stack_back w)) (spfx_stack_back w))
      as [st bs] eqn:R.
    cbv zeta in Hagain. cbn [fst snd] in *.
    cbn [spfx_effects spfx_stack_front spfx_stack_back warnings set_back].
    rewrite Hagain. injection Hall as -> ->. repeat split.
    + rewrite length_map, length_rev. reflexivity.
    + rewrite map_map. reflexivity.
    + intro H. discriminate.
Qed.

Lemma spfx_render_again_witness :
  let w' := fst (spfx_render false junk_base SPFX_LAYER_FRONT pool_example) in
  spfx_render false junk_base SPFX_LAYER_FRONT w'
    = spfx_render false junk_base SPFX_LAYER_FRONT pool_example /\
  length (snd (spfx_render false junk_base SPFX_LAYER_FRONT pool_example))
    = length (layer_stack SPFX_LAYER_FRONT pool_example) /\
  map (fun s => (pos s, vel s, effect s, timer s))
      (layer_stack SPFX_LAYER_FRONT w')
    = map (fun s => (pos s, vel s, effect s, timer s))
        (layer_stack SPFX_LAYER_FRONT pool_example) /\
  (SPFX_LAYER_FRONT = SPFX_LAYER_FRONT ->
   spfx_stack_back w' = spfx_stack_back pool_example) /\
  (SPFX_LAYER_FRONT = SPFX_LAYER_BACK ->
   spfx_stack_front w' = spfx_stack_front pool_example) /\
  spfx_effects w' = spfx_effects pool_example /\
  warnings w' = warnings pool_example.
Proof.
  apply (spfx_render_again false junk_base SPFX_LAYER_FRONT pool_example).
  left. reflexivity.
Defined.

(** ** Trails over several updates *)

Lemma has_outdated_false (pts : list trailPoint) :
  has_outdated pts = false <-> Forall (fun pt => tp_t pt <= 50) pts.
Proof.
  unfold has_outdated. induction pts as [|p r IH]; simpl.
  - split; [constructor|reflexivity].
  - rewrite orb_false_iff, IH, Qgtb_false. split.
    + intros [H1 H2]. constructor; assumption.
    + intro H. inversion H; subst. split; assumption.
Qed.

Lemma has_outdated_true (pts : list trailPoint) :
  has_outdated pts = true <-> exists pt, In pt pts /\ 50 < tp_t pt.
Proof.
  unfold has_outdated. rewrite existsb_exists. split.
  - intros (pt & Hin & H). exists pt. split; [exact Hin|].
    apply Qgtb_true. exact H.
  - intros (pt & Hin & H). exists pt. split; [exact Hin|].
    apply Qgtb_true. exact H.
Qed.

(** A trail has no point older than 50, or a last one. *)
Lemma last_outdated (pts : list trailPoint) :
  has_outdated pts = false \/
  exists a p b, pts = a ++ p :: b /\ 50 < tp_t p /\ has_outdated b = false.
Proof.
  induction pts as [|p r IH]; [left; reflexivity|].
  destruct IH as [Hr|(a & q & b & -> & Hq & Hb)].
  - destruct (Qgtb (tp_t p) 50) eqn:Hp.
    + right. exists [], p, r. apply Qgtb_true in Hp. auto.
    + left. unfold has_outdated in *. simpl. rewrite Hp, Hr. reflexivity.
  - right. exists (p :: a), q, b. auto.
Qed.

Lemma trail_cut_none (pts : list trailPoint) :
  has_outdated pts = false -> trail_cut pts = pts.
Proof.
  destruct pts as [|p r]; [reflexivity|]. intro H. simpl.
  unfold has_outdated in H. simpl in H. apply orb_false_iff in H.
  destruct H as [_ H]. fold (has_outdated r) in H. rewrite H. reflexivity.
Qed.

Lemma trail_cut_found (a b : list trailPoint) p :
  50 < tp_t p -> has_outdated b = false -> trail_cut (a ++ p :: b) = p :: b.
Proof.
  intros Hp Hb. induction a as [|x a IH]; simpl.
  - rewrite Hb. reflexivity.
  - replace (has_outdated (a ++ p :: b)) with true; [exact IH|].
    symmetry. apply has_outdated_true. exists p. split; [|exact Hp].
    apply in_or_app. right. left. reflexivity.
Qed.

(** The scan of [spfx_trail_update] from the tail cuts the trail as
    [trail_cut] does from the head. *)
Lemma trail_trim_from_cut (pts : list trailPoint) :
  trail_trim_from (length pts) pts = trail_cut pts.
Proof.
  destruct (last_outdated pts) as [Hn|(a & p & b & -> & Hp & Hb)].
  - rewrite trail_cut_none by exact Hn.
    apply trail_trim_from_none, has_outdated_false, Hn.
  - rewrite trail_cut_found by assumption.
    rewrite (trail_trim_from_found (a ++ p :: b) (length a) p).
    + apply skipn_length_app.
    + rewrite length_app. simpl. lia.
    + lia.
    + rewrite nth_error_app2, Nat.sub_diag by lia. reflexivity.
    + exact Hp.
    + intros j pj Hj Hnth. apply has_outdated_false in Hb.
      rewrite Forall_forall in Hb. apply Hb.
      rewrite nth_error_app2 in Hnth by lia.
      destruct (j - length a)%nat as [|m] eqn:Em; [lia|].
      simpl in Hnth. eapply nth_error_In. exact Hnth.
Qed.

Lemma spfx_trail_update_cut trail dt :
  points (fst (spfx_trail_update trail dt))
  = trail_cut (map (trail_age dt) (points trail)).
Proof.
  rewrite spfx_trail_update_points, <- trail_trim_from_cut, length_map.
  reflexivity.
Qed.

Lemma trail_cut_suffix (pts : list trailPoint) :
  exists k, trail_cut pts = skipn k pts /\
            (pts <> [] -> (k < length pts)%nat).
Proof.
  induction pts as [|p r (k & Hk & Hlt)].
  - exists O. split; [reflexivity|]. intro H. contradiction.
  - simpl. destruct (has_outdated r) eqn:E.
    + exists (S k). split; [exact Hk|]. intros _. simpl.
      assert (r <> []) by (intro Hr; subst r; discriminate). 
      specialize (Hlt H). lia.
    + exists O. split; [reflexivity|]. intros _. simpl. lia.
Qed.

Lemma trail_cut_back (pts : list trailPoint) :
  array_back (trail_cut pts) = array_back pts.
Proof.
  induction pts as [|p r IH]; [reflexivity|]. simpl.
  destruct (has_outdated r) eqn:E; [|reflexivity].
  rewrite IH. destruct r as [|q r']; [discriminate|].
  unfold array_back. reflexivity.
Qed.

Lemma trail_cut_rest (pts : list trailPoint) :
  Forall (fun pt => tp_t pt <= 50) (tl (trail_cut pts)).
Proof.
  induction pts as [|p r IH]; [constructor|]. simpl.
  destruct (has_outdated r) eqn:E; [exact IH|].
  simpl. apply has_outdated_false. exact E.
Qed.

(** X8: [spfx_trail_update] leaves a suffix of the aged points: the tail
    point is never removed, so a trail that is not empty stays so; and
    after the call no point but the head is older than 50. *)
Theorem spfx_trail_update_keeps_tail (trail : Trail_spfx) (dt : Q) :
  (exists k,
     points (fst (spfx_trail_update trail dt))
       = skipn k (map (trail_age dt) (points trail)) /\
     (points trail <> [] -> (k < length (points trail))%nat)) /\
  (points trail <> [] -> points (fst (spfx_trail_update trail dt)) <> []) /\
  array_back (points (fst (spfx_trail_update trail dt)))
    = option_map (trail_age dt) (array_back (points trail)) /\
  Forall (fun pt => tp_t pt <= 50)
    (tl (points (fst (spfx_trail_update trail dt)))).
Proof.
  rewrite spfx_trail_update_cut.
  destruct (trail_cut_suffix (map (trail_age dt) (points trail)))
    as (k & Hk & Hlt).
  assert (Hne : points trail <> [] ->
                map (trail_age dt) (points trail) <> []).
  { destruct (points trail); [intro H; contradiction|discriminate]. }
  rewrite length_map in Hlt.
  split; [|split; [|split]].
  - exists k. split; [exact Hk|]. intro H. apply Hlt, Hne, H.
  - intros H Hcut. rewrite Hk in Hcut.
    assert (Hl : length (skipn k (map (trail_age dt) (points trail))) = O)
      by (rewrite Hcut; reflexivity).
    rewrite length_skipn, length_map in Hl.
    specialize (Hlt (Hne H)). lia.
  - rewrite trail_cut_back. apply array_back_map.
  - apply trail_cut_rest.
Qed.

Lemma trail_ordered_app_new (pts : list trailPoint) pos col :
  trail_ordered pts -> trail_ordered (pts ++ [mkTrailPoint pos col 0]).
Proof.
  induction pts as [|p r IH]; simpl.
  - intros _. repeat split; [apply Qle_refl|constructor].
  - intros (H0 & Hr & Ho). repeat split; [exact H0| |apply IH, Ho].
    apply Forall_app. split; [exact Hr|]. constructor; [|constructor].
    exact H0.
Qed.

Lemma trail_ordered_aged (pts : list trailPoint) dt :
  0 <= dt -> trail_ordered pts -> trail_ordered (map (trail_age dt) pts).
Proof.
  intro Hdt. induction pts as [|p r IH]; simpl; [auto|].
  intros (H0 & Hr & Ho). repeat split; [lra| |apply IH, Ho].
  apply Forall_map. eapply Forall_impl; [|exact Hr]. simpl. intros q Hq. lra.
Qed.

Lemma trail_ordered_cut (pts : list trailPoint) :
  trail_ordered pts -> trail_ordered (trail_cut pts).
Proof.
  induction pts as [|p r IH]; [auto|]. intros (H0 & Hr & Ho). simpl.
  destruct (has_outdated r); [apply IH, Ho|]. simpl. auto.
Qed.

Lemma trail_cut_retains (pts : list trailPoint) pt :
  trail_ordered pts -> In pt pts -> tp_t pt <= 50 -> In pt (trail_cut pts).
Proof.
  induction pts as [|p r IH]; [intros _ []|].
  intros (H0 & Hr & Ho) Hin Hpt. simpl.
  destruct (has_outdated r) eqn:E; [|exact Hin].
  apply has_outdated_true in E. destruct E as (q & Hq & Hover).
  rewrite Forall_forall in Hr. specialize (Hr q Hq).
  destruct Hin as [<-|Hin]; [lra|]. apply IH; assumption.
Qed.

(** X9: a trail whose ages are not negative and do not increase from the
    head to the tail stays so when it grows and when it is updated with
    [dt >= 0]; the update of such a trail removes no point that is within
    the retention age. *)
Theorem trail_order_kept (trail : Trail_spfx) (pos : Vector2d)
    (col : glColour) (dt : Q) :
  trail_ordered (points trail) -> 0 <= dt ->
  trail_ordered (points (spfx_trail_grow trail pos col)) /\
  trail_ordered (points (fst (spfx_trail_update trail dt))) /\
  forall pt, In pt (map (trail_age dt) (points trail)) -> tp_t pt <= 50 ->
             In pt (points (fst (spfx_trail_update trail dt))).
Proof.
  intros Ho Hdt. split; [|split].
  - apply trail_ordered_app_new, Ho.
  - rewrite spfx_trail_update_cut.
    apply trail_ordered_cut, trail_ordered_aged; assumption.
  - intros pt Hin Hpt. rewrite spfx_trail_update_cut.
    apply trail_cut_retains; [apply trail_ordered_aged| |]; assumption.
Qed.

Lemma trail_order_kept_witness :
  trail_ordered (points (spfx_trail_grow old_trail_example vectnull
                           (mkColour 0 0 0 0))) /\
  trail_ordered (points (fst (spfx_trail_update old_trail_example 1))) /\
  forall pt, In pt (map (trail_age 1) (points old_trail_example)) ->
             tp_t pt <= 50 ->
             In pt (points (fst (spfx_trail_update old_trail_example 1))).
Proof.
  apply (trail_order_kept old_trail_example vectnull (mkColour 0 0 0 0) 1).
  - simpl. repeat split; try discriminate; repeat constructor; discriminate.
  - discriminate.
Defined.

(** ** The shake over a frame *)

Lemma Qsum_nonneg (l : list Q) : Forall (fun h => 0 <= h) l -> 0 <= Qsum l.
Proof.
  induction 1 as [|h l Hh H IH]; unfold Qsum in *; simpl; lra.
Qed.

Section ShakeFrame.

Variable E : externs.

(** A tick writes the variables of the shake and no other. *)
Lemma spfx_updateShake_frame rng h (w : world) :
  let w' := spfx_updateShake E rng h w in
  spfx_effects w' = spfx_effects w /\
  spfx_stack_front w' = spfx_stack_front w /\
  spfx_stack_back w' = spfx_stack_back w /\
  shake_set w' = shake_set w /\
  haptic_rumble w' = haptic_rumble w /\
  haptic_lastUpdate w' = haptic_lastUpdate w /\
  warnings w' = warnings w.
Proof.
  unfold spfx_updateShake. destruct (shake_off w); [repeat split|].
  destruct (Qgtb (shake_force_mod w) 0);
    [destruct (Qltb (shake_force_mod w - SHAKE_DECAY E * h) 0)|];
    cbv iota beta zeta;
    destruct (Qltb (VMOD E (shake_pos w)) (1 # 100));
    destruct (Qltb (VMOD E (shake_vel w)) (1 # 100));
    cbn; repeat split.
Qed.

Lemma fold_updateShake_frame rng (steps : list Q) : forall w : world,
  let w' := fold_left (fun s h => spfx_updateShake E rng h s) steps w in
  spfx_effects w' = spfx_effects w /\
  spfx_stack_front w' = spfx_stack_front w /\
  spfx_stack_back w' = spfx_stack_back w /\
  shake_set w' = shake_set w /\
  haptic_rumble w' = haptic_rumble w /\
  haptic_lastUpdate w' = haptic_lastUpdate w /\
  warnings w' = warnings w.
Proof.
  induction steps as [|h steps IH]; intro w; [repeat split|].
  cbn [fold_left]. cbv zeta.
  destruct (IH (spfx_updateShake E rng h w))
    as (A1 & A2 & A3 & A4 & A5 & A6 & A7).
  destruct (spfx_updateShake_frame rng h w)
    as (B1 & B2 & B3 & B4 & B5 & B6 & B7).
  repeat split; congruence.
Qed.


(** A tick lets the force decay and never grow. *)
Lemma spfx_updateShake_force_le rng h (w : world) :
  0 <= shake_force_mod w -> 0 <= SHAKE_DECAY E * h ->
  0 <= shake_force_mod (spfx_updateShake E rng h w) /\
  shake_force_mod (spfx_updateShake E rng h w) <= shake_force_mod w.
Proof.
  intros H0 Hd. unfold spfx_updateShake. destruct (shake_off w); [lra|].
  destruct (Qgtb (shake_force_mod w) 0) eqn:Hf;
    [destruct (Qltb (shake_force_mod w - SHAKE_DECAY E * h) 0) eqn:Hn|];
    cbv iota beta zeta;
    destruct (Qltb (VMOD E (shake_pos w)) (1 # 100));
    destruct (Qltb (VMOD E (shake_vel w)) (1 # 100));
    cbn; try lra; apply Qltb_false in Hn; lra.
Qed.

Lemma fold_updateShake_force_le rng (steps : list Q) : forall w : world,
  0 <= SHAKE_DECAY E -> Forall (fun h => 0 <= h) steps ->
  0 <= shake_force_mod w ->
  0 <= shake_force_mod
         (fold_left (fun s h => spfx_updateShake E rng h s) steps w) /\
  shake_force_mod (fold_left (fun s h => spfx_updateShake E rng h s) steps w)
    <= shake_force_mod w.
Proof.
  induction steps as [|h steps IH]; intros w HD Hs H0; [simpl; lra|].
  inversion Hs; subst. cbn [fold_left].
  assert (Hh : 0 <= SHAKE_DECAY E * h) by nra.
  destruct (spfx_updateShake_force_le rng h w H0 Hh) as [G0 G1].
  destruct (IH (spfx_updateShake E rng h w) HD ltac:(assumption) G0)
    as [F0 F1].
  lra.
Qed.

(** The force written by [spfx_shake]. *)
Lemma spfx_shake_force sdl_ok modifier (w : world) :
  shake_force_mod (spfx_shake E sdl_ok modifier w)
  = if Qgtb (shake_force_mod w + modifier) (SHAKE_MAX E)
    then SHAKE_MAX E else shake_force_mod w + modifier.
Proof.
  unfold spfx_shake, spfx_hapticRumble.
  cbn [shake_force_mod haptic_rumble set_shake haptic_lastUpdate shake_off].
  destruct (haptic_rumble w >=? 0)%Z; [|reflexivity].
  destruct (Qgtb (haptic_lastUpdate w) 0 || shake_off w
            || Qgtb modifier (SHAKE_MAX E / 3)); [reflexivity|].
  destruct sdl_ok; reflexivity.
Qed.

(** The steps of a frame that is not negative are not negative. *)
Lemma shake_control_loop_steps (dt : Q) :
  0 <= dt ->
  exists steps : list Q,
    (forall St (tick : Q -> St -> St) (s : St),
       shake_control_loop tick dt s
       = fold_left (fun s h => tick h s) steps s) /\
    Forall (fun h => 0 <= h) steps /\ Qsum steps == dt /\
    (0 < dt -> Forall (fun h => 0 < h) steps) /\ steps <> [].
Proof.
  intro Hdt.
  destruct (shake_control_loop_run dt) as (k & Hrun & Hle & Hpos & Heq & H0 & H1).
  exists (repeat shake_fps_min k ++ [leftover k dt]).
  assert (Hl : 0 <= leftover k dt).
  { destruct (Qlt_le_dec 0 dt) as [Hp|Hz]; [apply Qlt_le_weak, Hpos, Hp|].
    assert (Hk : k = O) by (apply H0; change shake_fps_min with (1 # 10); lra).
    subst k. simpl. exact Hdt. }
  split; [exact Hrun|]. split; [|split; [|split]].
  - apply Forall_app. split.
    + apply Forall_forall. intros h Hh. apply repeat_spec in Hh. subst h.
      discriminate.
    + constructor; [exact Hl|constructor].
  - rewrite Qsum_app, Qsum_repeat. unfold Qsum. simpl. rewrite Heq. ring.
  - intro Hp. apply Forall_app. split.
    + apply Forall_forall. intros h Hh. apply repeat_spec in Hh. subst h.
      reflexivity.
    + constructor; [apply Hpos, Hp|constructor].
  - intro H. apply app_eq_nil in H. destruct H as [_ H]. discriminate.
Qed.

(** X13: the force of the shake stays between zero and [SHAKE_MAX]:
    [spfx_shake] with a modifier that is not negative leaves it there,
    and over a frame [spfx_begin] lets it decay and never grow. *)
Theorem shake_force_bounded sdl_ok modifier rng dt real_dt (w : world) :
  0 <= SHAKE_DECAY E -> 0 <= SHAKE_MAX E -> 0 <= modifier -> 0 <= dt ->
  0 <= shake_force_mod w ->
  (0 <= shake_force_mod (spfx_shake E sdl_ok modifier w) /\
   shake_force_mod (spfx_shake E sdl_ok modifier w) <= SHAKE_MAX E) /\
  (0 <= shake_force_mod (spfx_begin E rng dt real_dt w) /\
   shake_force_mod (spfx_begin E rng dt real_dt w) <= shake_force_mod w).
Proof.
  intros HD HM Hm Hdt H0. split.
  - rewrite spfx_shake_force.
    destruct (Qgtb (shake_force_mod w + modifier) (SHAKE_MAX E)) eqn:Eg.
    + lra.
    + apply Qgtb_false in Eg. lra.
  - unfold spfx_begin. cbn [shake_off set_shake].
    destruct (shake_off w); [cbn; lra|].
    destruct (shake_control_loop_steps dt Hdt) as (steps & Hrun & Hs & _).
    rewrite Hrun.
    set (w0 := if Qgtb _ 0 then _ else _).
    assert (Hw0 : shake_force_mod w0 = shake_force_mod w)
      by (unfold w0; destruct (Qgtb _ 0); reflexivity).
    cbn [shake_force_mod set_shake].
    rewrite <- Hw0 in H0 |- *.
    apply fold_updateShake_force_le; assumption.
Qed.

(** X15: the timer of the haptic updates never exceeds the interval
    between two updates: [spfx_shake], and [spfx_begin] with a real step
    that is not negative, keep it at most [HAPTIC_UPDATE_INTERVAL]; and
    the [spfx_shake] that switches the shake on leaves the device
    alone. *)
Theorem haptic_timer_bounded sdl_ok modifier rng dt real_dt (w : world) :
  haptic_lastUpdate w <= HAPTIC_UPDATE_INTERVAL -> 0 <= real_dt ->
  haptic_lastUpdate (spfx_shake E sdl_ok modifier w)
    <= HAPTIC_UPDATE_INTERVAL /\
  haptic_lastUpdate (spfx_begin E rng dt real_dt w)
    <= HAPTIC_UPDATE_INTERVAL /\
  (shake_off w = true ->
   haptic_lastUpdate (spfx_shake E sdl_ok modifier w) = haptic_lastUpdate w /\
   warnings (spfx_shake E sdl_ok modifier w) = warnings w).
Proof.
  intros Hb Hr. unfold HAPTIC_UPDATE_INTERVAL in *. split; [|split].
  - unfold spfx_shake, spfx_hapticRumble.
    cbn [haptic_rumble set_shake haptic_lastUpdate shake_off].
    destruct (haptic_rumble w >=? 0)%Z; [|exact Hb].
    destruct (Qgtb (haptic_lastUpdate w) 0) eqn:Et; [exact Hb|].
    cbn [orb].
    destruct (shake_off w || Qgtb modifier (SHAKE_MAX E / 3)); [exact Hb|].
    destruct sdl_ok; cbn; [|exact Hb].
    apply Qgtb_false in Et. unfold HAPTIC_UPDATE_INTERVAL. lra.
  - unfold spfx_begin. cbn [shake_off set_shake].
    destruct (shake_off w); [exact Hb|].
    destruct (shake_control_loop_run dt) as (k & Hrun & _). rewrite Hrun.
    set (w0 := if Qgtb _ 0 then _ else _).
    destruct (fold_updateShake_frame rng
                (repeat shake_fps_min k ++ [leftover k dt]) w0)
      as (_ & _ & _ & _ & _ & A6 & _).
    cbn [haptic_lastUpdate set_shake]. rewrite A6. unfold w0.
    cbn [haptic_lastUpdate set_shake].
    destruct (Qgtb (haptic_lastUpdate w) 0); cbn; lra.
  - intro Hoff. unfold spfx_shake, spfx_hapticRumble.
    cbn [haptic_rumble set_shake haptic_lastUpdate shake_off warnings].
    rewrite Hoff. destruct (haptic_rumble w >=? 0)%Z; [|split; reflexivity].
    rewrite orb_true_r. cbn [orb]. split; reflexivity.
Qed.

End ShakeFrame.

Lemma shake_force_bounded_witness :
  (0 <= shake_force_mod (spfx_shake example_externs true 2 shaken_example) /\
   shake_force_mod (spfx_shake example_externs true 2 shaken_example)
     <= SHAKE_MAX example_externs) /\
  (0 <= shake_force_mod
          (spfx_begin example_externs 0 (1 # 4) (1 # 4) shaken_example) /\
   shake_force_mod
     (spfx_begin example_externs 0 (1 # 4) (1 # 4) shaken_example)
     <= shake_force_mod shaken_example).
Proof.
  apply (shake_force_bounded example_externs true 2 0 (1 # 4) (1 # 4)
           shaken_example); vm_compute; discriminate.
Defined.

Lemma haptic_timer_bounded_witness :
  haptic_lastUpdate (spfx_shake example_externs true (1 # 4) rumbling_example)
    <= HAPTIC_UPDATE_INTERVAL /\
  haptic_lastUpdate
    (spfx_begin example_externs 0 (1 # 4) (1 # 30) rumbling_example)
    <= HAPTIC_UPDATE_INTERVAL /\
  (shake_off rumbling_example = true ->
   haptic_lastUpdate (spfx_shake example_externs true (1 # 4) rumbling_example)
     = haptic_lastUpdate rumbling_example /\
   warnings (spfx_shake example_externs true (1 # 4) rumbling_example)
     = warnings rumbling_example).
Proof.
  apply (haptic_timer_bounded example_externs true (1 # 4) 0 (1 # 4) (1 # 30)
           rumbling_example); vm_compute; discriminate.
Defined.

(** On a state with a haptic device and a shake that is on, a small
    [spfx_shake] updates the device and starts the timer; the next one
    finds the timer running and leaves the device alone. *)
Example haptic_rumble_example :
  haptic_lastUpdate rumbling_example = 0 /\
  haptic_lastUpdate (spfx_shake example_externs true (1 # 4) rumbling_example)
    = 0 + (1 # 10) /\
  haptic_lastUpdate
    (spfx_shake example_externs true (1 # 4)
       (spfx_shake example_externs true (1 # 4) rumbling_example))
    = 0 + (1 # 10).
Proof. repeat split. Qed.

(** ** The mission table *)

Import Missions.

(** The scan for a free slot: either every slot is occupied and the scan
    ends past the table, or it stops on the first free slot. *)
Lemma first_free_from_spec (slots : list Mission) : forall i,
  (Forall occupied slots /\
   first_free_from i slots = (i + length slots)%nat) \/
  (exists a m b,
     slots = a ++ m :: b /\ Forall occupied a /\ data m = None /\
     first_free_from i slots = (i + length a)%nat).
Proof.
  induction slots as [|m r IH]; intro i; simpl.
  - left. split; [constructor|lia].
  - destruct (data m) as [d|] eqn:Ed.
    + destruct (IH (S i)) as [[Ho Hr]|(a & m0 & b & -> & Ho & Hm & Hr)].
      * left. split; [|lia]. constructor; [|exact Ho].
        unfold occupied. rewrite Ed. discriminate.
      * right. exists (m :: a), m0, b.
        split; [reflexivity|]. split; [|split; [exact Hm|simpl; lia]].
        constructor; [|exact Ho]. unfold occupied. rewrite Ed. discriminate.
    + right. exists [], m, r.
      split; [reflexivity|]. split; [constructor|]. split; [exact Ed|].
      simpl. lia.
Qed.

(** The two outcomes of [mission_create]. *)
Lemma mission_create_cases (misn : option MissionData)
    (slots : list Mission) :
  (Forall occupied slots /\
   mission_create misn slots = ((-1)%Z, slots)) \/
  (exists a m b,
     slots = a ++ m :: b /\ Forall occupied a /\ data m = None /\
     mission_create misn slots
     = (0%Z, a ++ mkMission misn (Some new_lua_state) :: b)).
Proof.
  unfold mission_create.
  destruct (first_free_from_spec slots 0)
    as [[Ho Hr]|(a & m & b & -> & Ho & Hm & Hr)]; rewrite Hr.
  - left. split; [exact Ho|].
    replace (length slots <=? 0 + length slots)%nat
      with true by (symmetry; apply Nat.leb_le; lia).
    reflexivity.
  - right. exists a, m, b. repeat split; auto.
    replace (length (a ++ m :: b) <=? 0 + length a)%nat with false
      by (symmetry; apply Nat.leb_gt; rewrite length_app; simpl; lia).
    simpl Nat.add. rewrite array_set_app. reflexivity.
Qed.

(** X16: [mission_create] returns -1 exactly when every slot of the table
    holds a mission, and then leaves the table alone; otherwise it returns
    0 and writes the mission and a new Lua state into the first free slot,
    and nothing into the others. *)
Theorem mission_create_first_free (misn : option MissionData)
    (player_missions : list Mission) :
  (fst (mission_create misn player_missions) = (-1)%Z
   <-> Forall occupied player_missions) /\
  (fst (mission_create misn player_missions) = (-1)%Z ->
   snd (mission_create misn player_missions) = player_missions) /\
  (fst (mission_create misn player_missions) <> (-1)%Z ->
   fst (mission_create misn player_missions) = 0%Z /\
   exists a m b,
     player_missions = a ++ m :: b /\ Forall occupied a /\ data m = None /\
     snd (mission_create misn player_missions)
     = a ++ mkMission misn (Some new_lua_state) :: b).
Proof.
  destruct (mission_create_cases misn player_missions)
    as [[Ho Hr]|(a & m & b & E & Ho & Hm & Hr)]; rewrite Hr; cbn [fst snd].
  - split; [split; auto|]. split; [auto|]. intro H. contradiction.
  - split; [|split].
    + split; [discriminate|]. intro Hall. exfalso. rewrite E in Hall.
      apply Forall_app in Hall. destruct Hall as [_ Hall].
      inversion Hall; subst. unfold occupied in *. contradiction.
    + discriminate.
    + intros _. split; [reflexivity|]. exists a, m, b. auto.
Qed.

Lemma free_slots_occupied (slots : list Mission) :
  Forall occupied slots <-> free_slots slots = O.
Proof.
  unfold free_slots, occupied. induction slots as [|m r IH]; simpl.
  - split; [reflexivity|constructor].
  - destruct (data m) eqn:Ed; simpl.
    + rewrite <- IH. split.
      * intro H. inversion H. assumption.
      * intro H. constructor; [rewrite Ed; discriminate|exact H].
    + split; [|discriminate]. intro H. inversion H; subst.
      rewrite Ed in *. contradiction.
Qed.

Lemma free_slots_app (a b : list Mission) :
  free_slots (a ++ b) = (free_slots a + free_slots b)%nat.
Proof.
  unfold free_slots. rewrite filter_app, length_app. reflexivity.
Qed.

(** A mission created takes one free slot, if there is one. *)
Lemma mission_create_free_slots (d : MissionData) (slots : list Mission) :
  free_slots (snd (mission_create (Some d) slots)) = pred (free_slots slots) /\
  length (snd (mission_create (Some d) slots)) = length slots /\
  (fst (mission_create (Some d) slots) = (-1)%Z <-> free_slots slots = O) /\
  (fst (mission_create (Some d) slots) <> (-1)%Z ->
   fst (mission_create (Some d) slots) = 0%Z).
Proof.
  destruct (mission_create_cases (Some d) slots)
    as [[Ho Hr]|(a & m & b & -> & Ho & Hm & Hr)]; rewrite Hr; cbn [fst snd].
  - apply free_slots_occupied in Ho. rewrite Ho.
    repeat split; auto. intro H. contradiction.
  - rewrite !free_slots_app. apply free_slots_occupied in Ho. rewrite Ho.
    rewrite !length_app. unfold free_slots. simpl. rewrite Hm. simpl.
    repeat split; auto; intro H; discriminate.
Qed.

Lemma missions_after_free_slots (misns : list MissionData) :
  forall slots,
  free_slots (missions_after misns slots)
    = (free_slots slots - length misns)%nat /\
  length (missions_after misns slots) = length slots.
Proof.
  induction misns as [|d misns IH]; intro slots.
  - simpl. split; [lia|reflexivity].
  - unfold missions_after. cbn [fold_left].
    fold (missions_after misns (snd (mission_create (Some d) slots))).
    destruct (IH (snd (mission_create (Some d) slots))) as [H1 H2].
    destruct (mission_create_free_slots d slots) as (F1 & F2 & _).
    rewrite H1, H2, F1, F2. simpl. split; [lia|reflexivity].
Qed.

Lemma free_slots_empty (n : nat) : free_slots (empty_missions n) = n.
Proof.
  unfold free_slots, empty_missions.
  induction n as [|n IH]; simpl; [reflexivity|]. rewrite IH. reflexivity.
Qed.

(** X17: a table of [n] slots holds [n] missions and no more.  After the
    missions [misns] were created in an empty table, the free slots are
    the [n - length misns] that are left, the size of the table is still
    [n], and one more [mission_create] fails, with -1, exactly when [misns]
    has [n] missions or more; otherwise it returns 0. *)
Theorem mission_table_capacity (n : nat) (misns : list MissionData)
    (d : MissionData) :
  let table := missions_after misns (empty_missions n) in
  free_slots table = (n - length misns)%nat /\
  length table = n /\
  (fst (mission_create (Some d) table) = (-1)%Z <-> (n <= length misns)%nat) /\
  (fst (mission_create (Some d) table) = 0%Z <-> (length misns < n)%nat).
Proof.
  cbv zeta.
  destruct (missions_after_free_slots misns (empty_missions n)) as [H1 H2].
  rewrite free_slots_empty in H1.
  unfold empty_missions in H2 at 2. rewrite repeat_length in H2.
  destruct (mission_create_free_slots d
              (missions_after misns (empty_missions n)))
    as (_ & _ & F3 & F4).
  rewrite H1 in F3. split; [exact H1|]. split; [exact H2|]. split.
  - rewrite F3. lia.
  - split.
    + intro H0. destruct (Nat.lt_ge_cases (length misns) n) as [Hlt|Hge];
        [exact Hlt|].
      assert (Hm : fst (mission_create (Some d)
                          (missions_after misns (empty_missions n)))
                   = (-1)%Z) by (apply F3; lia).
      rewrite H0 in Hm. discriminate.
    + intro Hlt. apply F4. intro Hm. apply F3 in Hm. lia.
Qed.

(** Three missions in a table of two slots: the third one is refused and
    the table keeps the first two. *)
Example mission_table_example :
  let t2 := missions_after ["a"%string; "b"%string] (empty_missions 2) in
  map data t2 = [Some "a"%string; Some "b"%string] /\
  mission_create (Some "c"%string) t2 = ((-1)%Z, t2).
Proof. split; reflexivity. Qed.
